(** * DOM event helpers of [ariakit-core]: [utils/events.ts]

    A shallow embedding of the helpers of
    [packages/ariakit-core/src/utils/events.ts] and the properties their
    description states about them.

    The helpers sit directly on browser primitives ([dispatchEvent],
    [addEventListener], [setTimeout], [requestAnimationFrame],
    [window.frames]) and on two imports ([contains] from [dom.ts], [isApple]
    from [platform.ts]).  None of these is part of the file: each module
    below takes the primitives it needs as an explicit host state.

    Layout: the embedding first (modules [Js], [Intent], [Dispatch],
    [Queue], [Frames]), then the properties ([JsFacts], [IntentFacts], ...). *)

From Stdlib Require Import Bool Arith ZArith QArith List String Ascii Lia.
Import ListNotations.
Close Scope Q_scope.

Set Implicit Arguments.

(* ================================================================== *)
(** * Part I: the embedding                                            *)
(* ================================================================== *)

(** ** JavaScript values, as far as the helpers look at them *)

Module Js.

Local Open Scope string_scope.

(** A JavaScript number.  The helpers only test one for truthiness and
    hand it to the host, so the finite doubles are kept as the rationals
    they denote (both zeros are [0]). *)
Inductive number : Type :=
| NaN
| Infinity (negative : bool)
| Finite (q : Q).

(** [ToBoolean] on a number: [0], [-0] and [NaN] are falsy. *)
Definition numberToBoolean (n : number) : bool :=
  match n with
  | NaN => false
  | Infinity _ => true
  | Finite q => negb (Qnum q =? 0)%Z
  end.

(** A value.  An object is the association list of the properties the [in]
    operator sees (own and inherited alike); the first binding of a key
    wins. *)
#[warnings="-register-all"]
Inductive Value : Type :=
| Undefined
| Null
| Bool (b : bool)
| Number (n : number)
| Str (s : string)
| Object (props : list (string * Value)).

Definition Props : Type := list (string * Value).

Inductive Error : Type :=
| TypeError
| SecurityError.

(** The outcome of evaluating an expression or calling a function. *)
Inductive Completion (A : Type) : Type :=
| Normal (a : A)
| Throw (e : Error).

Arguments Normal {A} a.
Arguments Throw {A} e.

Definition ret {A : Type} (a : A) : Completion A := Normal a.

Definition bind {A B : Type} (c : Completion A) (k : A -> Completion B)
  : Completion B :=
  match c with
  | Normal a => k a
  | Throw e => Throw e
  end.

Local Notation "x <- c ;; k" := (bind c (fun x => k))
  (at level 61, c at next level, right associativity).

(** [ToBoolean]. *)
Definition toBoolean (v : Value) : bool :=
  match v with
  | Undefined => false
  | Null => false
  | Bool b => b
  | Number n => numberToBoolean n
  | Str s => negb (s =? "")
  | Object _ => true
  end.

Fixpoint lookup (key : string) (props : Props) : option Value :=
  match props with
  | [] => None
  | (k, v) :: rest => if k =? key then Some v else lookup key rest
  end.

(** [key in v]: a [TypeError] unless [v] is an object. *)
Definition hasProperty (key : string) (v : Value) : Completion bool :=
  match v with
  | Object props =>
      Normal (match lookup key props with Some _ => true | None => false end)
  | _ => Throw TypeError
  end.

(** [v.key]: a [TypeError] on [undefined] and [null]; a primitive has none
    of the properties read here. *)
Definition getProperty (key : string) (v : Value) : Completion Value :=
  match v with
  | Object props =>
      Normal (match lookup key props with Some x => x | None => Undefined end)
  | Undefined | Null => Throw TypeError
  | _ => Normal Undefined
  end.

(** [typeof v === "string"]. *)
Definition isString (v : Value) : bool :=
  match v with
  | Str _ => true
  | _ => false
  end.

(** [String.prototype.toLowerCase] on the ASCII letters.  The helpers only
    compare its result with the ASCII words ["a"], ["button"], ["input"];
    no character outside ASCII lower-cases to a letter of these words, so
    leaving other bytes alone does not change any comparison. *)
Definition lowerAscii (c : ascii) : ascii :=
  let n := nat_of_ascii c in
  if ((65 <=? n) && (n <=? 90))%nat then ascii_of_nat (n + 32) else c.

Fixpoint toLowerCase (s : string) : string :=
  match s with
  | EmptyString => EmptyString
  | String c rest => String (lowerAscii c) (toLowerCase rest)
  end.

(** *** [getInputType] (events.ts, 160-166)

    [event] is an [Event] or a wrapper [{ nativeEvent }]; the result is the
    [inputType] string or [undefined]. *)
Definition getInputType (event : Value) : Completion Value :=
  wrapped <- hasProperty "nativeEvent" event ;;
  nativeEvent <-
    (if wrapped then getProperty "nativeEvent" event else ret event) ;;
  if negb (toBoolean nativeEvent) then ret Undefined else
  present <- hasProperty "inputType" nativeEvent ;;
  if negb present then ret Undefined else
  inputType <- getProperty "inputType" nativeEvent ;;
  if negb (isString inputType) then ret Undefined else
  getProperty "inputType" nativeEvent.

(** The inputs the signature [Event | { nativeEvent: Event }] admits, with
    the [null] (or [undefined]) [nativeEvent] the function guards against:
    an object whose [nativeEvent], when it has one, is an object, [null] or
    [undefined]. *)
Definition isEventInput (event : Value) : bool :=
  match event with
  | Object props =>
      match lookup "nativeEvent" props with
      | None => true
      | Some (Object _) => true
      | Some Null => true
      | Some Undefined => true
      | Some _ => false
      end
  | _ => false
  end.

(** The native event behind an input: the wrapped one, or the input. *)
Definition nativeEventOf (event : Value) : option Props :=
  match event with
  | Object props =>
      match lookup "nativeEvent" props with
      | None => Some props
      | Some (Object native) => Some native
      | Some _ => None
      end
  | _ => None
  end.

End Js.

(** ** Intent predicates: [isOpeningInNewTab], [isDownloading] *)

Module Intent.

Import Js.
Local Open Scope string_scope.

(** What the predicates read of [event.currentTarget]: its [tagName] and
    its [type] ([None] when the element has no string [type]). *)
Record Element : Type := {
  tagName : string;
  type : option string
}.

Record MouseEvent : Type := {
  currentTarget : option Element;
  metaKey : bool;
  ctrlKey : bool;
  altKey : bool
}.

(** [platform.ts] is not among the sources.  The platform is an oracle:
    the [n]-th call of [isApple] is answered by [answers n], and [checks]
    counts the calls made so far. *)
Record Platform : Type := {
  answers : nat -> bool;
  checks : nat
}.

Definition Host (A : Type) : Type := Platform -> A * Platform.

Definition ret {A : Type} (a : A) : Host A := fun p => (a, p).

Definition bind {A B : Type} (c : Host A) (k : A -> Host B) : Host B :=
  fun p => let (a, p') := c p in k a p'.

Local Notation "x <- c ;; k" := (bind c (fun x => k))
  (at level 61, c at next level, right associativity).

Definition isApple : Host bool :=
  fun p =>
    (answers p (checks p),
     {| answers := answers p; checks := S (checks p) |}).

(** [element.type === "submit"] *)
Definition isSubmit (t : option string) : bool :=
  match t with
  | Some s => s =? "submit"
  | None => false
  end.

(** *** [isOpeningInNewTab] (events.ts, 28-45) *)
Definition isOpeningInNewTab (event : MouseEvent) : Host bool :=
  match currentTarget event with
  | None => ret false
  | Some element =>
      isAppleDevice <- isApple ;;
      if isAppleDevice && negb (metaKey event) then ret false else
      if negb isAppleDevice && negb (ctrlKey event) then ret false else
      let tagName := toLowerCase (tagName element) in
      if tagName =? "a" then ret true else
      if (tagName =? "button") && isSubmit (type element) then ret true else
      if (tagName =? "input") && isSubmit (type element) then ret true else
      ret false
  end.

(** *** [isDownloading] (events.ts, 50-65) *)
Definition isDownloading (event : MouseEvent) : Host bool :=
  match currentTarget event with
  | None => ret false
  | Some element =>
      let tagName := toLowerCase (tagName element) in
      if negb (altKey event) then ret false else
      if tagName =? "a" then ret true else
      if (tagName =? "button") && isSubmit (type element) then ret true else
      if (tagName =? "input") && isSubmit (type element) then ret true else
      ret false
  end.

(** The element gate both predicates share, in the words of their
    description: an anchor, or a button or input whose type is "submit". *)
Definition isLinkOrSubmit (element : Element) : Prop :=
  toLowerCase (tagName element) = "a"
  \/ (toLowerCase (tagName element) = "button" /\ type element = Some "submit")
  \/ (toLowerCase (tagName element) = "input" /\ type element = Some "submit").

End Intent.

(** ** Synthetic dispatch: [fireBlurEvent], [fireFocusEvent] *)

Module Dispatch.

Local Open Scope string_scope.

(** An element is known by its identity. *)
Definition Element : Type := nat.

(** [FocusEventInit]: every member of the dictionary is optional. *)
Record FocusEventInit : Type := {
  bubbles : option bool;
  cancelable : option bool;
  composed : option bool;
  relatedTarget : option (option Element)
}.

(** A constructed [FocusEvent]. *)
Record FocusEvent : Type := {
  eventType : string;
  eventBubbles : bool;
  eventCancelable : bool;
  eventComposed : bool;
  eventRelatedTarget : option Element
}.

Definition member {A : Type} (default : A) (m : option A) : A :=
  match m with
  | Some a => a
  | None => default
  end.

(** [new FocusEvent(type, eventInit)]: an absent dictionary, or an absent
    member, takes the default ([false], [null]). *)
Definition newFocusEvent (type : string) (eventInit : option FocusEventInit)
  : FocusEvent :=
  match eventInit with
  | None =>
      {| eventType := type; eventBubbles := false; eventCancelable := false;
         eventComposed := false; eventRelatedTarget := None |}
  | Some init =>
      {| eventType := type;
         eventBubbles := member false (bubbles init);
         eventCancelable := member false (cancelable init);
         eventComposed := member false (composed init);
         eventRelatedTarget := member None (relatedTarget init) |}
  end.

(** [{ ...eventInit, bubbles: true }]: spreading [undefined] adds nothing. *)
Definition spreadWithBubbles (eventInit : option FocusEventInit)
  : FocusEventInit :=
  match eventInit with
  | None =>
      {| bubbles := Some true; cancelable := None; composed := None;
         relatedTarget := None |}
  | Some init =>
      {| bubbles := Some true; cancelable := cancelable init;
         composed := composed init; relatedTarget := relatedTarget init |}
  end.

Section Host.

(** The host: its state [H] (the document, its listeners) and its
    synchronous [dispatchEvent], which runs the listeners and answers
    whether the default action is still allowed. *)
Variable H : Type.
Variable hostDispatch : Element -> FocusEvent -> H -> bool * H.

(** The document with the record of the dispatches made on it, oldest
    first. *)
Record Dom : Type := {
  dispatched : list (Element * FocusEvent);
  host : H
}.

(** [element.dispatchEvent(event)] *)
Definition dispatchEvent (element : Element) (event : FocusEvent) (d : Dom)
  : bool * Dom :=
  let (allowed, h) := hostDispatch element event (host d) in
  (allowed, {| dispatched := dispatched d ++ [(element, event)]; host := h |}).

(** *** [fireBlurEvent] (events.ts, 89-95) *)
Definition fireBlurEvent (element : Element)
  (eventInit : option FocusEventInit) (d : Dom) : bool * Dom :=
  let event := newFocusEvent "blur" eventInit in
  let (defaultAllowed, d) := dispatchEvent element event d in
  let bubbleInit := spreadWithBubbles eventInit in
  let (_, d) :=
    dispatchEvent element (newFocusEvent "focusout" (Some bubbleInit)) d in
  (defaultAllowed, d).

(** *** [fireFocusEvent] (events.ts, 102-108) *)
Definition fireFocusEvent (element : Element)
  (eventInit : option FocusEventInit) (d : Dom) : bool * Dom :=
  let event := newFocusEvent "focus" eventInit in
  let (defaultAllowed, d) := dispatchEvent element event d in
  let bubbleInit := spreadWithBubbles eventInit in
  let (_, d) :=
    dispatchEvent element (newFocusEvent "focusin" (Some bubbleInit)) d in
  (defaultAllowed, d).

(** Whether a listener run by the dispatch of [event] on [element] called
    [event.preventDefault()] (a passive listener's call does not count). *)
Variable preventDefaultCalled : Element -> FocusEvent -> H -> bool.

(** What a helper has done when it returns [result] from the document [d]:
    it dispatched the primary event, built from [eventInit], then the
    companion event, which bubbles and otherwise has the members of the
    primary one, and its result is the answer of the primary dispatch. *)
Definition pairDispatched (primary companion : string) (element : Element)
  (eventInit : option FocusEventInit) (d : Dom) (result : bool * Dom)
  : Prop :=
  let first := newFocusEvent primary eventInit in
  let second := newFocusEvent companion (Some (spreadWithBubbles eventInit)) in
  dispatched (snd result)
  = (dispatched d ++ [(element, first); (element, second)])%list
  /\ host (snd result)
     = snd (hostDispatch element second
              (snd (hostDispatch element first (host d))))
  /\ eventType first = primary
  /\ eventType second = companion
  /\ eventBubbles second = true
  /\ eventCancelable second = eventCancelable first
  /\ eventComposed second = eventComposed first
  /\ eventRelatedTarget second = eventRelatedTarget first
  /\ fst result = fst (hostDispatch element first (host d)).

(** The result read as the description words it: [false] if and only if
    some listener called [preventDefault] on the primary event. *)
Definition falseIffPreventDefaultCalled (primary : string)
  (element : Element) (eventInit : option FocusEventInit) (d : Dom)
  (result : bool * Dom) : Prop :=
  fst result = false
  <-> preventDefaultCalled element (newFocusEvent primary eventInit) (host d)
      = true.

(** The result as the DOM gives it: [false] if and only if the primary
    event is cancelable and some listener called [preventDefault] on it. *)
Definition falseIffCanceled (primary : string) (element : Element)
  (eventInit : option FocusEventInit) (d : Dom) (result : bool * Dom)
  : Prop :=
  fst result = false
  <-> eventCancelable (newFocusEvent primary eventInit) = true
      /\ preventDefaultCalled element (newFocusEvent primary eventInit)
           (host d) = true.

(** The DOM's contract for [dispatchEvent]: [preventDefault] sets the
    canceled flag of a cancelable event and is ignored on any other, and
    the dispatch answers [false] exactly when the flag is set. *)
Definition domDispatch : Prop :=
  forall (element : Element) (event : FocusEvent) (h : H),
    fst (hostDispatch element event h)
    = negb (eventCancelable event && preventDefaultCalled element event h).

End Host.

(** A host to run the helpers on: its state is the list of the listeners
    the events reach, each on an element for an event type, with whether it
    calls [preventDefault]. *)
Record Listener : Type := {
  listenerTarget : Element;
  listenerType : string;
  callsPreventDefault : bool
}.

Definition hears (element : Element) (event : FocusEvent) (l : Listener)
  : bool :=
  (listenerTarget l =? element)%nat && (listenerType l =? eventType event).

Definition listenerCalledPreventDefault (element : Element)
  (event : FocusEvent) (h : list Listener) : bool :=
  existsb (fun l => hears element event l && callsPreventDefault l) h.

Definition listenerDispatch (element : Element) (event : FocusEvent)
  (h : list Listener) : bool * list Listener :=
  (negb (eventCancelable event && listenerCalledPreventDefault element event h),
   h).

(** A document whose element 3 has a blur listener that calls
    [preventDefault], and an [eventInit] that makes the event cancelable. *)
Definition preventingDom : Dom (list Listener) :=
  {| dispatched := [];
     host := [{| listenerTarget := 3; listenerType := "blur";
                 callsPreventDefault := true |}] |}.

Definition cancelableInit : FocusEventInit :=
  {| bubbles := None; cancelable := Some true; composed := None;
     relatedTarget := None |}.

End Dispatch.

(** ** The deferred-callback race: [queueBeforeEvent] *)

Module Queue.

Import Js.
Local Open Scope string_scope.

Definition Element : Type := nat.

(** The caller's [callback], a function known by its identity.  What it
    does is its own business; the model records that it was called. *)
Definition CallbackId : Type := nat.

Inductive TimerApi : Type :=
| Timeout
| AnimationFrame.

(** The two functions [createTimer] returns:
    [() => clearTimeout(timerId)] and [() => cancelAnimationFrame(timerId)]. *)
Inductive Canceller : Type :=
| ClearTimeout (timerId : nat)
| CancelAnimationFrame (timerId : nat).

(** The two other functions a call of [queueBeforeEvent] creates.  Each
    closes over the variables of its call, the [scope]:
    - [OnTimer]:
      [() => { element.removeEventListener(type, callSync, true); callback(); }]
    - [CallSync]: [() => { cancelTimer(); callback(); }]
    Two calls have two scopes, so their functions are different objects. *)
Inductive Closure : Type :=
| OnTimer (scope : nat)
| CallSync (scope : nat).

(** The variables of one call of [queueBeforeEvent]. *)
Record Scope : Type := {
  element : Element;
  type : string;
  callback : CallbackId;
  timeout : option number;
  cancelTimer : Canceller
}.

(** A timer the host holds: a [setTimeout] timer with its delay, or a
    [requestAnimationFrame] request (no delay). *)
Record Timer : Type := {
  api : TimerApi;
  timerId : nat;
  delay : option number;
  handler : Closure
}.

Record Listener : Type := {
  target : Element;
  eventType : string;
  listener : Closure;
  capture : bool;
  once : bool
}.

(** The host, as far as [queueBeforeEvent] touches it: the active timers
    and the next identifier of each timer API (identifiers are handed out
    in increasing order, so one is never used twice), the registered
    listeners in registration order, the scopes of the calls made so far
    (a scope is known by its position), and the record of the callback
    invocations, oldest first, each with the scope whose function made
    it. *)
Record World : Type := {
  timers : list Timer;
  nextTimeoutId : nat;
  nextFrameId : nat;
  listeners : list Listener;
  scopes : list Scope;
  calls : list (nat * CallbackId)
}.

Definition emptyWorld : World :=
  {| timers := []; nextTimeoutId := 1; nextFrameId := 1; listeners := [];
     scopes := []; calls := [] |}.

Definition setTimers (ts : list Timer) (w : World) : World :=
  {| timers := ts; nextTimeoutId := nextTimeoutId w;
     nextFrameId := nextFrameId w; listeners := listeners w;
     scopes := scopes w; calls := calls w |}.

Definition setListeners (ls : list Listener) (w : World) : World :=
  {| timers := timers w; nextTimeoutId := nextTimeoutId w;
     nextFrameId := nextFrameId w; listeners := ls;
     scopes := scopes w; calls := calls w |}.

Definition api_eqb (a b : TimerApi) : bool :=
  match a, b with
  | Timeout, Timeout => true
  | AnimationFrame, AnimationFrame => true
  | _, _ => false
  end.

Definition closure_eqb (f g : Closure) : bool :=
  match f, g with
  | OnTimer s, OnTimer s' => (s =? s')%nat
  | CallSync s, CallSync s' => (s =? s')%nat
  | _, _ => false
  end.

(** *** Host primitives *)

(** [setTimeout(handler, delay)] *)
Definition setTimeout (handler : Closure) (delay : number) (w : World)
  : nat * World :=
  let id := nextTimeoutId w in
  (id,
   {| timers := timers w ++ [{| api := Timeout; timerId := id;
                                delay := Some delay; handler := handler |}];
      nextTimeoutId := S id; nextFrameId := nextFrameId w;
      listeners := listeners w; scopes := scopes w; calls := calls w |}).

(** [requestAnimationFrame(handler)] *)
Definition requestAnimationFrame (handler : Closure) (w : World)
  : nat * World :=
  let id := nextFrameId w in
  (id,
   {| timers := timers w ++ [{| api := AnimationFrame; timerId := id;
                                delay := None; handler := handler |}];
      nextTimeoutId := nextTimeoutId w; nextFrameId := S id;
      listeners := listeners w; scopes := scopes w; calls := calls w |}).

Definition isTimer (a : TimerApi) (id : nat) (t : Timer) : bool :=
  api_eqb (api t) a && (timerId t =? id)%nat.

(** Clearing an identifier that names no active timer does nothing. *)
Definition clearTimer (a : TimerApi) (id : nat) (w : World) : World :=
  setTimers (filter (fun t => negb (isTimer a id t)) (timers w)) w.

Definition clearTimeout (id : nat) (w : World) : World :=
  clearTimer Timeout id w.

Definition cancelAnimationFrame (id : nat) (w : World) : World :=
  clearTimer AnimationFrame id w.

(** A listener is known by its target, type, callback and capture flag. *)
Definition sameListener (e : Element) (ty : string) (f : Closure)
  (cap : bool) (l : Listener) : bool :=
  (target l =? e)%nat && (eventType l =? ty) && closure_eqb (listener l) f
  && Bool.eqb (capture l) cap.

(** [element.addEventListener(type, f, { once, capture })]: nothing is
    added when the same listener is registered already. *)
Definition addEventListener (e : Element) (ty : string) (f : Closure)
  (onc cap : bool) (w : World) : World :=
  if existsb (sameListener e ty f cap) (listeners w) then w
  else setListeners
         (listeners w ++ [{| target := e; eventType := ty; listener := f;
                             capture := cap; once := onc |}]) w.

(** [element.removeEventListener(type, f, capture)] *)
Definition removeEventListener (e : Element) (ty : string) (f : Closure)
  (cap : bool) (w : World) : World :=
  setListeners (filter (fun l => negb (sameListener e ty f cap l)) (listeners w)) w.

(** *** Running the functions *)

(** [callback()], called by a function of scope [s]. *)
Definition invoke (s : nat) (cb : CallbackId) (w : World) : World :=
  {| timers := timers w; nextTimeoutId := nextTimeoutId w;
     nextFrameId := nextFrameId w; listeners := listeners w;
     scopes := scopes w; calls := calls w ++ [(s, cb)] |}.

Definition runCanceller (c : Canceller) (w : World) : World :=
  match c with
  | ClearTimeout timerId => clearTimeout timerId w
  | CancelAnimationFrame timerId => cancelAnimationFrame timerId w
  end.

(** A function whose scope does not exist was never created; running it
    is left without effect. *)
Definition run (f : Closure) (w : World) : World :=
  match f with
  | OnTimer s =>
      match nth_error (scopes w) s with
      | None => w
      | Some sc =>
          let w := removeEventListener (element sc) (type sc) (CallSync s) true w in
          invoke s (callback sc) w
      end
  | CallSync s =>
      match nth_error (scopes w) s with
      | None => w
      | Some sc =>
          let w := runCanceller (cancelTimer sc) w in
          invoke s (callback sc) w
      end
  end.

(** *** [queueBeforeEvent] (events.ts, 171-198)

    The functions of a call run only after it has returned (the host runs
    a timer or a listener later, never inside [setTimeout] or
    [addEventListener]), so the scope is recorded once [cancelTimer] is
    bound: [OnTimer scope] and [CallSync scope] read it when they run. *)

Definition createTimer (timeout : option number) (callback : Closure)
  (w : World) : Canceller * World :=
  match timeout with
  | Some ms =>
      if numberToBoolean ms then
        let (timerId, w) := setTimeout callback ms w in
        (ClearTimeout timerId, w)
      else
        let (timerId, w) := requestAnimationFrame callback w in
        (CancelAnimationFrame timerId, w)
  | None =>
      let (timerId, w) := requestAnimationFrame callback w in
      (CancelAnimationFrame timerId, w)
  end.

Definition pushScope (sc : Scope) (w : World) : World :=
  {| timers := timers w; nextTimeoutId := nextTimeoutId w;
     nextFrameId := nextFrameId w; listeners := listeners w;
     scopes := scopes w ++ [sc]; calls := calls w |}.

Definition queueBeforeEvent (element : Element) (type : string)
  (callback : CallbackId) (timeout : option number) (w : World)
  : Canceller * World :=
  let scope := List.length (scopes w) in
  let (cancelTimer, w) := createTimer timeout (OnTimer scope) w in
  let callSync := CallSync scope in
  let w :=
    pushScope {| element := element; type := type; callback := callback;
                 timeout := timeout; cancelTimer := cancelTimer |} w in
  let w := addEventListener element type callSync true true w in
  (cancelTimer, w).

(** *** What happens after the call returns *)

Definition listener_eqb (l m : Listener) : bool :=
  sameListener (target m) (eventType m) (listener m) (capture m) l
  && Bool.eqb (once l) (once m).

Definition registered (l : Listener) (w : World) : bool :=
  existsb (listener_eqb l) (listeners w).

Definition dropListener (l : Listener) (w : World) : World :=
  setListeners (filter (fun m => negb (listener_eqb m l)) (listeners w)) w.

(** The host invokes the listeners it found registered when the event
    arrived, skipping one removed in the meantime; a [once] listener is
    removed before it is called. *)
Fixpoint invokeListeners (found : list Listener) (w : World) : World :=
  match found with
  | [] => w
  | l :: rest =>
      if registered l w then
        let w := if once l then dropListener l w else w in
        invokeListeners rest (run (listener l) w)
      else invokeListeners rest w
  end.

Definition hears (e : Element) (ty : string) (l : Listener) : bool :=
  (target l =? e)%nat && (eventType l =? ty).

(** An event of type [ty] passes [e]: its capturing listeners run before
    the others. *)
Definition eventFires (e : Element) (ty : string) (w : World) : World :=
  let here := filter (hears e ty) (listeners w) in
  invokeListeners (filter capture here ++ filter (fun l => negb (capture l)) here) w.

(** The host runs a timer: a delay that has elapsed, or an animation frame
    request at the next frame.  The timer leaves the active ones. *)
Definition timerFires (a : TimerApi) (id : nat) (w : World) : World :=
  match find (isTimer a id) (timers w) with
  | None => w
  | Some t => run (handler t) (clearTimer a id w)
  end.

(** What can happen on the page after a call: the host runs a timer or
    delivers an event, the page calls [queueBeforeEvent] again, or it
    invokes a cancellation handle. *)
Inductive Step : Type :=
| TimerFires (a : TimerApi) (id : nat)
| EventFires (e : Element) (ty : string)
| Queues (e : Element) (ty : string) (cb : CallbackId) (timeout : option number)
| Cancels (c : Canceller).

Definition step (st : Step) (w : World) : World :=
  match st with
  | TimerFires a id => timerFires a id w
  | EventFires e ty => eventFires e ty w
  | Queues e ty cb timeout => snd (queueBeforeEvent e ty cb timeout w)
  | Cancels c => runCanceller c w
  end.

Definition steps (tr : list Step) (w : World) : World :=
  fold_left (fun w st => step st w) tr w.

(** The callback invocations made by the functions of scope [s], oldest
    first, and their number. *)
Definition callsOf (s : nat) (w : World) : list (nat * CallbackId) :=
  filter (fun c => (fst c =? s)%nat) (calls w).

Definition runsOf (s : nat) (w : World) : nat :=
  List.length (callsOf s w).

(** The timer a cancellation handle names. *)
Definition timerOf (c : Canceller) : TimerApi * nat :=
  match c with
  | ClearTimeout id => (Timeout, id)
  | CancelAnimationFrame id => (AnimationFrame, id)
  end.

Definition canceller_eqb (c d : Canceller) : bool :=
  api_eqb (fst (timerOf c)) (fst (timerOf d))
  && (snd (timerOf c) =? snd (timerOf d))%nat.

Definition pending (c : Canceller) (w : World) : bool :=
  existsb (isTimer (fst (timerOf c)) (snd (timerOf c))) (timers w).

(** The two triggers of the call with handle [c] on [e] for [ty]. *)
Definition isTrigger (c : Canceller) (e : Element) (ty : string) (st : Step)
  : bool :=
  match st with
  | TimerFires a id => api_eqb a (fst (timerOf c)) && (id =? snd (timerOf c))%nat
  | EventFires e' ty' => (e' =? e)%nat && (ty' =? ty)
  | _ => false
  end.

(** The event trigger alone: an event of type [ty] passing [e]. *)
Definition isEvent (e : Element) (ty : string) (st : Step) : bool :=
  match st with
  | EventFires e' ty' => (e' =? e)%nat && (ty' =? ty)
  | _ => false
  end.

Definition isCancel (c : Canceller) (st : Step) : bool :=
  match st with
  | Cancels d => canceller_eqb d c
  | _ => false
  end.

(** Is the capture listener of scope [s] registered? *)
Definition listening (s : nat) (w : World) : bool :=
  existsb (fun l => closure_eqb (listener l) (CallSync s)) (listeners w).

(** The timer trigger a call has set up, read off the handle [fst r] it
    returned and the host [snd r] it left, for a call made in [w]: a
    [setTimeout] timer with delay [ms], or an animation frame request. *)
Definition usesDelayTimer (ms : number) (w : World) (r : Canceller * World)
  : Prop :=
  exists id : nat,
    fst r = ClearTimeout id
    /\ timers (snd r)
       = (timers w ++ [{| api := Timeout; timerId := id; delay := Some ms;
                          handler := OnTimer (List.length (scopes w)) |}])%list.

Definition usesAnimationFrame (w : World) (r : Canceller * World) : Prop :=
  exists id : nat,
    fst r = CancelAnimationFrame id
    /\ timers (snd r)
       = (timers w ++ [{| api := AnimationFrame; timerId := id; delay := None;
                          handler := OnTimer (List.length (scopes w)) |}])%list.

Definition mentions (s : nat) (f : Closure) : bool :=
  match f with
  | OnTimer s' => (s' =? s)%nat
  | CallSync s' => (s' =? s)%nat
  end.

(** Has the identifier [id] of timer API [a] been handed out? *)
Definition idBelow (w : World) (a : TimerApi) (id : nat) : bool :=
  match a with
  | Timeout => (id <? nextTimeoutId w)%nat
  | AnimationFrame => (id <? nextFrameId w)%nat
  end.

(** Does the scope of the function [f] exist? *)
Definition scopeBelow (w : World) (f : Closure) : bool :=
  match f with
  | OnTimer s => (s <? List.length (scopes w))%nat
  | CallSync s => (s <? List.length (scopes w))%nat
  end.

(** A world in which identifiers not yet handed out are not in use: every
    active timer has an identifier below the next one of its API, every
    function held by the host belongs to a scope that exists, every
    scope's [cancelTimer] names a timer already created, and every recorded
    invocation was made by a scope that exists.  A fresh page is so, and
    nothing that happens on a page changes it. *)
Definition wellFormed (w : World) : bool :=
  forallb (fun t => idBelow w (api t) (timerId t) && scopeBelow w (handler t))
          (timers w)
  && forallb (fun l => scopeBelow w (listener l)) (listeners w)
  && forallb (fun sc => idBelow w (fst (timerOf (cancelTimer sc)))
                                  (snd (timerOf (cancelTimer sc))))
             (scopes w)
  && forallb (fun c => (fst c <? List.length (scopes w))%nat) (calls w).

End Queue.

(** ** The listener on a window and its frames: [addGlobalEventListener] *)

Module Frames.

Import Js.
Local Open Scope string_scope.
Local Open Scope list_scope.

(** The [listener], a function or object known by its identity. *)
Definition ListenerId : Type := nat.

(** [options?: boolean | AddEventListenerOptions] *)
Inductive Options : Type :=
| UseCapture (flag : bool)
| Dictionary (capture : bool) (once : bool) (passive : bool).

Definition captureOf (options : option Options) : bool :=
  match options with
  | None => false
  | Some (UseCapture flag) => flag
  | Some (Dictionary capture _ _) => capture
  end.

Definition onceOf (options : option Options) : bool :=
  match options with
  | Some (Dictionary _ once _) => once
  | _ => false
  end.

(** A window and the windows of its frames.  Two flags say what the host
    refuses on it: [guarded] makes [addEventListener] and
    [removeEventListener] throw (a cross-origin or sandboxed frame),
    [framesGuarded] makes reading [frames] throw. *)
#[warnings="-register-all"]
Inductive Window : Type :=
| mkWindow (windowId : nat) (guarded : bool) (framesGuarded : bool)
    (frames : list Window).

Definition windowId (scope : Window) : nat :=
  match scope with mkWindow id _ _ _ => id end.

Definition guarded (scope : Window) : bool :=
  match scope with mkWindow _ g _ _ => g end.

Definition framesGuarded (scope : Window) : bool :=
  match scope with mkWindow _ _ g _ => g end.

Definition frames (scope : Window) : list Window :=
  match scope with mkWindow _ _ _ fs => fs end.

Record Registration : Type := {
  onWindow : nat;
  eventType : string;
  listener : ListenerId;
  capture : bool;
  once : bool
}.

(** The host: the listeners registered on the windows, in registration
    order. *)
Definition World : Type := list Registration.

Definition sameRegistration (id : nat) (type : string)
  (listener' : ListenerId) (cap : bool) (r : Registration) : bool :=
  (onWindow r =? id)%nat && (eventType r =? type)
  && (listener r =? listener')%nat && Bool.eqb (capture r) cap.

(** Is the listener registered on the window? *)
Definition attached (scope : Window) (type : string) (listener : ListenerId)
  (options : option Options) (w : World) : bool :=
  existsb (sameRegistration (windowId scope) type listener (captureOf options)) w.

(** What a successful [addEventListener] does to the host. *)
Definition attach (type : string) (listener : ListenerId)
  (options : option Options) (w : World) (scope : Window) : World :=
  if attached scope type listener options w then w
  else (w ++ [{| onWindow := windowId scope; eventType := type;
                 listener := listener; capture := captureOf options;
                 once := onceOf options |}])%list.

(** What a successful [removeEventListener] does to the host. *)
Definition detach (type : string) (listener : ListenerId)
  (options : option Options) (w : World) (scope : Window) : World :=
  filter (fun r => negb (sameRegistration (windowId scope) type listener
                           (captureOf options) r)) w.

(** [scope.addEventListener(type, listener, options)] *)
Definition windowAddEventListener (scope : Window) (type : string)
  (listener : ListenerId) (options : option Options) (w : World)
  : Completion unit * World :=
  if guarded scope then (Throw SecurityError, w)
  else (Normal tt, attach type listener options w scope).

(** [scope.removeEventListener(type, listener, options)] *)
Definition windowRemoveEventListener (scope : Window) (type : string)
  (listener : ListenerId) (options : option Options) (w : World)
  : Completion unit * World :=
  if guarded scope then (Throw SecurityError, w)
  else (Normal tt, detach type listener options w scope).

(** [Array.from(scope.frames)] *)
Definition windowFrames (scope : Window) : Completion (list Window) :=
  match scope with
  | mkWindow _ _ framesGuarded frames =>
      if framesGuarded then Throw SecurityError else Normal frames
  end.

(** The function [addGlobalEventListener] returns: it closes over [scope],
    [type], [listener], [options] and the array [children]. *)
#[warnings="-register-all"]
Inductive Remover : Type :=
| mkRemover (scope : Window) (type : string) (listener : ListenerId)
    (options : option Options) (children : list Remover).

(** *** [addGlobalEventListener] (events.ts, 216-242)

    The [try] block ends normally or with an exception; either way the
    elements it has pushed onto [children] and its effects on the host
    stay.  [catch {}] drops the exception. *)
Fixpoint addGlobalEventListener (type : string) (listener : ListenerId)
  (options : option Options) (scope : Window) (w : World) {struct scope}
  : Completion Remover * World :=
  let children : list Remover := [] in
  let '(tried, children, w) :=
    match windowAddEventListener scope type listener options w with
    | (Throw e, w) => (Throw e, children, w)
    | (Normal _, w) =>
        (* Array.from(scope.frames), see [windowFrames] *)
        match scope with
        | mkWindow _ _ true _ => (Throw SecurityError, children, w)
        | mkWindow _ _ false frames =>
            (fix each (frames : list Window) (children : list Remover)
               (w : World) : Completion unit * list Remover * World :=
               match frames with
               | [] => (Normal tt, children, w)
               | frame :: rest =>
                   match addGlobalEventListener type listener options frame w with
                   | (Throw e, w) => (Throw e, children, w)
                   | (Normal remove, w) => each rest (children ++ [remove]) w
                   end
               end) frames children w
        end
    end in
  let caught : Completion unit :=
    match tried with
    | Normal _ => Normal tt
    | Throw _ => Normal tt
    end in
  match caught with
  | Throw e => (Throw e, w)
  | Normal _ => (Normal (mkRemover scope type listener options children), w)
  end.

(** Calling the returned [removeEventListener]: the [try] covers the
    scope's own removal only, the loop over [children] is outside it. *)
Fixpoint runRemover (remove : Remover) (w : World) {struct remove}
  : Completion unit * World :=
  match remove with
  | mkRemover scope type listener options children =>
      let w :=
        match windowRemoveEventListener scope type listener options w with
        | (Throw _, w) => w
        | (Normal _, w) => w
        end in
      (fix each (children : list Remover) (w : World)
         : Completion unit * World :=
         match children with
         | [] => (Normal tt, w)
         | remove :: rest =>
             match runRemover remove w with
             | (Throw e, w) => (Throw e, w)
             | (Normal _, w) => each rest w
             end
         end) children w
  end.

(** A window the walk can reach from [root]: [root] itself when it is not
    guarded, and then, when its frames can be read, a window reachable
    from one of its frames. *)
Inductive Accessible (root : Window) : Window -> Prop :=
| accessible_root :
    guarded root = false -> Accessible root root
| accessible_frame (frame x : Window) :
    guarded root = false ->
    framesGuarded root = false ->
    In frame (frames root) ->
    Accessible frame x ->
    Accessible root x.

(** The same windows as a list, in the order the walk visits them. *)
Fixpoint reached (root : Window) : list Window :=
  match root with
  | mkWindow _ g fg fs =>
      if g then []
      else root :: (if fg then [] else flat_map reached fs)
  end.

End Frames.

(** ** Target and origin predicates: [isPortalEvent], [isSelfTarget],
    [isFocusEventOutside] *)

Module Targets.

Import Js.
Local Open Scope list_scope.

(** A node is known by its place in the document: the path from the root
    to it (the index of the child taken at each level). *)
Definition Node : Type := list nat.

(** The fields of an event the three predicates read; each is a node or
    [null]. *)
Record Event : Type := {
  target : option Node;
  currentTarget : option Node;
  relatedTarget : option Node
}.

Definition node_eqb (a b : Node) : bool :=
  if list_eq_dec Nat.eq_dec a b then true else false.

(** [a === b] on two values that are a node or [null]. *)
Definition strictEquals (a b : option Node) : bool :=
  match a, b with
  | Some x, Some y => node_eqb x y
  | None, None => true
  | _, _ => false
  end.

Local Notation "x <- c ;; k" := (bind c (fun x => k))
  (at level 61, c at next level, right associativity).

Section Contains.

(** [contains] is imported from [dom.ts], which is not among the sources.
    It is taken as it is called: on whatever the casts of the callers let
    through, a node or [null] on either side, and free to throw. *)
Variable contains : option Node -> option Node -> Completion bool.

(** *** [isPortalEvent] (events.ts, 7-14)

    [a && b] does not evaluate [b] when [a] is [null], and [Boolean(null)]
    is [false]. *)
Definition isPortalEvent (event : Event) : Completion bool :=
  match currentTarget event with
  | None => ret false
  | Some _ =>
      inside <- contains (currentTarget event) (target event) ;;
      ret (negb inside)
  end.

(** *** [isSelfTarget] (events.ts, 19-23) *)
Definition isSelfTarget (event : Event) : bool :=
  strictEquals (target event) (currentTarget event).

(** *** [isFocusEventOutside] (events.ts, 148-155)

    [container || event.currentTarget]: an element is truthy, [null] and
    [undefined] are not.  [!a || b] does not evaluate [b] when [a] is
    [null]. *)
Definition isFocusEventOutside (event : Event) (container : option Node)
  : Completion bool :=
  let containerElement :=
    match container with
    | Some c => Some c
    | None => currentTarget event
    end in
  let relatedTarget := relatedTarget event in
  match relatedTarget with
  | None => ret true
  | Some _ =>
      inside <- contains containerElement relatedTarget ;;
      ret (negb inside)
  end.

End Contains.

(** A containment check to run the predicates on: a node contains itself
    and the nodes below it, and [null] is refused on either side. *)
Fixpoint isPrefix (a b : Node) : bool :=
  match a, b with
  | [], _ => true
  | x :: a', y :: b' => (x =? y)%nat && isPrefix a' b'
  | _ :: _, [] => false
  end.

Definition treeContains (parent child : option Node) : Completion bool :=
  match parent, child with
  | Some p, Some c => Normal (isPrefix p c)
  | _, _ => Throw TypeError
  end.

(** A containment check that refuses every call. *)
Definition containsThrows (parent child : option Node) : Completion bool :=
  Throw TypeError.

End Targets.

(** ** One-event dispatch: [fireEvent], [fireKeyboardEvent],
    [fireClickEvent] *)

Module Fire.

Local Open Scope string_scope.

Definition Element : Type := nat.

(** The constructor that built an event. *)
Inductive Interface : Type :=
| PlainEvent
| KeyboardEvent
| MouseEvent.

(** [EventInit], and the members of [KeyboardEventInit] and
    [PointerEventInit] the constructors below copy: every member is
    optional. *)
Record EventInit : Type := {
  bubbles : option bool;
  cancelable : option bool;
  composed : option bool
}.


Record PointerEventInit : Type := {
  pointerEventInit : EventInit;
  button : option nat;
  pointerShiftKey : option bool;
  pointerCtrlKey : option bool;
  pointerAltKey : option bool;
  pointerMetaKey : option bool;
  pointerId : option nat
}.

(** A constructed event. *)
Record DomEvent : Type := {
  interface : Interface;
  eventType : string;
  eventBubbles : bool;
  eventCancelable : bool;
  eventComposed : bool;
  eventKey : string;
  eventButton : nat;
  eventShiftKey : bool;
  eventCtrlKey : bool;
  eventAltKey : bool;
  eventMetaKey : bool
}.

Definition member {A : Type} (default : A) (m : option A) : A :=
  match m with
  | Some a => a
  | None => default
  end.

Definition flag (init : option EventInit) (get : EventInit -> option bool)
  : bool :=
  match init with
  | Some i => member false (get i)
  | None => false
  end.



(** [new MouseEvent(type, eventInit)] on a [PointerEventInit]: the
    constructor reads the members of [MouseEventInit]; [pointerId] is not
    one of them. *)
Definition newMouseEvent (type : string)
  (eventInit : option PointerEventInit) : DomEvent :=
  let base := option_map pointerEventInit eventInit in
  let read {A : Type} (default : A) (get : PointerEventInit -> option A) : A :=
    match eventInit with
    | Some i => member default (get i)
    | None => default
    end in
  {| interface := MouseEvent; eventType := type;
     eventBubbles := flag base bubbles;
     eventCancelable := flag base cancelable;
     eventComposed := flag base composed;
     eventKey := ""; eventButton := read 0 button;
     eventShiftKey := read false pointerShiftKey;
     eventCtrlKey := read false pointerCtrlKey;
     eventAltKey := read false pointerAltKey;
     eventMetaKey := read false pointerMetaKey |}.

Section Host.

(** The host, as for [fireBlurEvent]: its state, its synchronous
    [dispatchEvent], and whether a listener run by a dispatch called
    [preventDefault] (a passive listener's call does not count). *)
Variable H : Type.
Variable hostDispatch : Element -> DomEvent -> H -> bool * H.
Variable preventDefaultCalled : Element -> DomEvent -> H -> bool.

Record Dom : Type := {
  dispatched : list (Element * DomEvent);
  host : H
}.

(** [element.dispatchEvent(event)] *)
Definition dispatchEvent (element : Element) (event : DomEvent) (d : Dom)
  : bool * Dom :=
  let (allowed, h) := hostDispatch element event (host d) in
  (allowed,
   {| dispatched := (dispatched d ++ [(element, event)])%list; host := h |}).



(** *** [fireClickEvent] (events.ts, 132-135) *)
Definition fireClickEvent (element : Element)
  (eventInit : option PointerEventInit) (d : Dom) : bool * Dom :=
  let event := newMouseEvent "click" eventInit in
  dispatchEvent element event d.

(** The DOM's contract for [dispatchEvent]: [preventDefault] sets the
    canceled flag of a cancelable event and is ignored on any other, and
    the dispatch answers [false] exactly when the flag is set. *)
Definition domDispatch : Prop :=
  forall (element : Element) (event : DomEvent) (h : H),
    fst (hostDispatch element event h)
    = negb (eventCancelable event && preventDefaultCalled element event h).


End Host.

(** A host to run the helpers on: every dispatch reaches a listener that
    calls [preventDefault]. *)
Definition alwaysPrevents (element : Element) (event : DomEvent) (h : unit)
  : bool := true.

Definition preventingDispatch (element : Element) (event : DomEvent)
  (h : unit) : bool * unit :=
  (negb (eventCancelable event && alwaysPrevents element event h), h).

End Fire.

(* ================================================================== *)
(** * Part II: the properties                                          *)
(* ================================================================== *)

(** ** [getInputType] *)

Module JsFacts.

Import Js.
Local Open Scope string_scope.

Lemma getInputType_raw (props : Props) :
  lookup "nativeEvent" props = None ->
  getInputType (Object props)
  = Normal (match lookup "inputType" props with
            | Some (Str s) => Str s
            | _ => Undefined
            end).
Proof.
  intros Hraw. unfold getInputType. cbn. rewrite Hraw. cbn.
  destruct (lookup "inputType" props) as [v|]; cbn; [|reflexivity].
  destruct v; reflexivity.
Qed.

Lemma getInputType_wrapped (props native : Props) :
  lookup "nativeEvent" props = Some (Object native) ->
  getInputType (Object props)
  = Normal (match lookup "inputType" native with
            | Some (Str s) => Str s
            | _ => Undefined
            end).
Proof.
  intros Hwrap. unfold getInputType. cbn. rewrite Hwrap. cbn.
  destruct (lookup "inputType" native) as [v|]; cbn; [|reflexivity].
  destruct v; reflexivity.
Qed.

Lemma getInputType_absent (props : Props) (v : Value) :
  lookup "nativeEvent" props = Some v ->
  v = Null \/ v = Undefined ->
  getInputType (Object props) = Normal Undefined.
Proof.
  intros Hwrap [-> | ->]; unfold getInputType; cbn; rewrite Hwrap; reflexivity.
Qed.

(** Outside the inputs of the signature the function can throw: the [in]
    operator refuses a primitive. *)
Example getInputType_primitive_throws :
  getInputType (Object [("nativeEvent", Number (Finite 5))]) = Throw TypeError.
Proof. reflexivity. Qed.

Lemma string_result_cases (o : option Value) (s : string) :
  match o with Some (Str t) => Str t | _ => Undefined end = Str s
  <-> o = Some (Str s).
Proof.
  destruct o as [v|]; [destruct v|]; split; intros E;
    try discriminate; congruence.
Qed.

Lemma string_or_undefined (o : option Value) :
  let r := match o with Some (Str t) => Str t | _ => Undefined end in
  r = Undefined \/ exists s, r = Str s.
Proof.
  destruct o as [v|]; [destruct v|]; cbn; eauto.
Qed.

(** C9.  For every input of the signature - an event object, or a wrapper
    whose [nativeEvent] is an event object, [null] or [undefined] -
    [getInputType] returns normally (it does not throw); the result is the
    string [s] exactly when the native event has an [inputType] property
    whose value is the string [s], and it is [undefined] in every other
    case (no native event, no [inputType], an [inputType] that is not a
    string). *)
Theorem getInputType_string_or_undefined (event : Value)
  (Hinput : isEventInput event = true) :
  exists r : Value,
    getInputType event = Normal r
    /\ (forall s : string,
          r = Str s <->
          exists native : Props,
            nativeEventOf event = Some native
            /\ lookup "inputType" native = Some (Str s))
    /\ (r = Undefined \/ exists s : string, r = Str s).
Proof.
  destruct event as [| |b|n|s|props]; try discriminate Hinput.
  cbn in Hinput.
  destruct (lookup "nativeEvent" props) as [v|] eqn:Hnative.
  - destruct v as [| |b|n|s|native]; try discriminate Hinput.
    + exists Undefined. split.
      * apply getInputType_absent with (v := Undefined); auto.
      * split; [|now left]. intros s. split; [discriminate|].
        intros (native & Hn & _). cbn in Hn. rewrite Hnative in Hn.
        discriminate.
    + exists Undefined. split.
      * apply getInputType_absent with (v := Null); auto.
      * split; [|now left]. intros s. split; [discriminate|].
        intros (native & Hn & _). cbn in Hn. rewrite Hnative in Hn.
        discriminate.
    + eexists. split; [apply getInputType_wrapped; eassumption|].
      split; [|apply string_or_undefined].
      intros s. rewrite string_result_cases. cbn. rewrite Hnative.
      split.
      * intros Hs. exists native. auto.
      * intros (native' & Hn & Hs). congruence.
  - eexists. split; [apply getInputType_raw; assumption|].
    split; [|apply string_or_undefined].
    intros s. rewrite string_result_cases. cbn. rewrite Hnative.
    split.
    + intros Hs. exists props. auto.
    + intros (native' & Hn & Hs). congruence.
Qed.

Definition insertTextEvent : Value :=
  Object [("nativeEvent",
           Object [("type", Str "input"); ("inputType", Str "insertText")])].

Lemma getInputType_string_or_undefined_witness :
  isEventInput insertTextEvent = true
  /\ exists r : Value,
       getInputType insertTextEvent = Normal r
       /\ (forall s : string,
             r = Str s <->
             exists native : Props,
               nativeEventOf insertTextEvent = Some native
               /\ lookup "inputType" native = Some (Str s))
       /\ (r = Undefined \/ exists s : string, r = Str s).
Proof.
  split; [reflexivity|].
  apply (getInputType_string_or_undefined insertTextEvent). reflexivity.
Defined.

End JsFacts.

(** ** [isOpeningInNewTab] and [isDownloading] *)

Module IntentFacts.

Import Js Intent.
Local Open Scope string_scope.

Lemma isSubmit_true (t : option string) :
  isSubmit t = true <-> t = Some "submit".
Proof.
  destruct t as [s|]; cbn.
  - rewrite String.eqb_eq. split; congruence.
  - split; discriminate.
Qed.

(** The chain of tag tests the two predicates end with. *)
Definition gate (element : Element) : bool :=
  let tagName := toLowerCase (tagName element) in
  if tagName =? "a" then true else
  if (tagName =? "button") && isSubmit (type element) then true else
  if (tagName =? "input") && isSubmit (type element) then true else
  false.

Lemma gate_true (element : Element) :
  gate element = true <-> isLinkOrSubmit element.
Proof.
  unfold gate, isLinkOrSubmit.
  destruct (toLowerCase (tagName element) =? "a") eqn:Ea.
  - apply String.eqb_eq in Ea. tauto.
  - apply String.eqb_neq in Ea.
    destruct (toLowerCase (tagName element) =? "button") eqn:Eb; cbn.
    + apply String.eqb_eq in Eb.
      destruct (isSubmit (type element)) eqn:Es.
      * apply isSubmit_true in Es. tauto.
      * assert (type element <> Some "submit")
          by (rewrite <- isSubmit_true; congruence).
        rewrite Eb. cbn. split; [discriminate|].
        intros [H1 | [[_ H1] | [H1 _]]]; congruence.
    + apply String.eqb_neq in Eb.
      destruct (toLowerCase (tagName element) =? "input") eqn:Ei; cbn.
      * apply String.eqb_eq in Ei.
        destruct (isSubmit (type element)) eqn:Es.
        -- apply isSubmit_true in Es. tauto.
        -- assert (type element <> Some "submit")
             by (rewrite <- isSubmit_true; congruence).
           split; [discriminate|]. intros [H1 | [[H1 _] | [_ H1]]]; congruence.
      * apply String.eqb_neq in Ei.
        split; [discriminate|]. intros [H1 | [[H1 _] | [H1 _]]]; congruence.
Qed.

Lemma isOpeningInNewTab_element (event : MouseEvent) (element : Element)
  (p : Platform) :
  currentTarget event = Some element ->
  isOpeningInNewTab event p
  = ((if answers p (checks p) then metaKey event else ctrlKey event)
     && gate element,
     {| answers := answers p; checks := S (checks p) |}).
Proof.
  intros Ht. unfold isOpeningInNewTab, gate, bind, isApple, ret. rewrite Ht.
  destruct (answers p (checks p)), (metaKey event), (ctrlKey event); cbn;
    try reflexivity;
    destruct (toLowerCase (tagName element) =? "a"); try reflexivity;
    destruct ((toLowerCase (tagName element) =? "button")
              && isSubmit (type element)); try reflexivity;
    destruct ((toLowerCase (tagName element) =? "input")
              && isSubmit (type element)); reflexivity.
Qed.

Lemma isDownloading_element (event : MouseEvent) (element : Element)
  (p : Platform) :
  currentTarget event = Some element ->
  isDownloading event p = (altKey event && gate element, p).
Proof.
  intros Ht. unfold isDownloading, gate, ret. rewrite Ht.
  destruct (altKey event); cbn; try reflexivity;
    destruct (toLowerCase (tagName element) =? "a"); try reflexivity;
    destruct ((toLowerCase (tagName element) =? "button")
              && isSubmit (type element)); try reflexivity;
    destruct ((toLowerCase (tagName element) =? "input")
              && isSubmit (type element)); reflexivity.
Qed.

(** C6.  [isOpeningInNewTab] returns [true] exactly when [currentTarget]
    is an element, the modifier of the platform is held ([metaKey] when the
    platform check answers Apple, [ctrlKey] when it does not) and the
    element is an anchor, or a button or input of type "submit".  With a
    [null] [currentTarget] it returns [false] without asking the platform;
    otherwise it asks once, and both modifier tests use that one answer. *)
Theorem isOpeningInNewTab_true_iff (event : MouseEvent) (p : Platform) :
  (fst (isOpeningInNewTab event p) = true <->
   exists element : Element,
     currentTarget event = Some element
     /\ (if answers p (checks p) then metaKey event else ctrlKey event) = true
     /\ isLinkOrSubmit element)
  /\ (currentTarget event = None -> isOpeningInNewTab event p = (false, p))
  /\ (currentTarget event <> None ->
      checks (snd (isOpeningInNewTab event p)) = S (checks p)).
Proof.
  destruct (currentTarget event) as [element|] eqn:Ht.
  - rewrite (isOpeningInNewTab_element event p Ht). cbn [fst snd checks].
    split; [|split; [discriminate | reflexivity]].
    rewrite andb_true_iff, gate_true. split.
    + intros [Hm Hg]. exists element. auto.
    + intros (element' & He & Hm & Hg). injection He as <-. auto.
  - unfold isOpeningInNewTab. rewrite Ht. cbn.
    split; [|split; [reflexivity | congruence]].
    split; [discriminate|]. intros (element & He & _). discriminate.
Qed.

(** C7.  With an element as [currentTarget], [isDownloading] returns
    [true] if and only if [altKey] is held and the element is an anchor, or
    a button or input of type "submit"; with [null] it returns [false].  It
    makes no platform check: the platform is left as it was, and the result
    is the same on every platform. *)
Theorem isDownloading_true_iff (event : MouseEvent) (p : Platform) :
  (forall element : Element,
     currentTarget event = Some element ->
     (fst (isDownloading event p) = true <->
      altKey event = true /\ isLinkOrSubmit element))
  /\ (currentTarget event = None -> fst (isDownloading event p) = false)
  /\ snd (isDownloading event p) = p
  /\ (forall q : Platform,
        fst (isDownloading event q) = fst (isDownloading event p)).
Proof.
  destruct (currentTarget event) as [element|] eqn:Ht.
  - rewrite (isDownloading_element event p Ht). cbn [fst snd].
    split; [|split; [discriminate | split; [reflexivity|]]].
    + intros element' He. injection He as <-.
      rewrite andb_true_iff, gate_true. tauto.
    + intros q. rewrite (isDownloading_element event q Ht). reflexivity.
  - unfold isDownloading. rewrite Ht. cbn.
    split; [discriminate|]. auto.
Qed.

(** The cases of the description, on an anchor: Meta opens a new tab on an
    Apple platform and Ctrl does not; elsewhere the converse. *)
Definition anchor : Element := {| tagName := "A"; type := Some "" |}.

Definition click (meta ctrl alt : bool) : MouseEvent :=
  {| currentTarget := Some anchor; metaKey := meta; ctrlKey := ctrl;
     altKey := alt |}.

Definition platform (apple : bool) : Platform :=
  {| answers := fun _ => apple; checks := 0 |}.

Example anchor_click_cases :
  fst (isOpeningInNewTab (click true false false) (platform true)) = true
  /\ fst (isOpeningInNewTab (click false true false) (platform true)) = false
  /\ fst (isOpeningInNewTab (click false true false) (platform false)) = true
  /\ fst (isOpeningInNewTab (click true false false) (platform false)) = false
  /\ fst (isDownloading (click false false true) (platform true)) = true
  /\ fst (isDownloading (click true true false) (platform false)) = false.
Proof. repeat split; reflexivity. Qed.

End IntentFacts.

(** ** [fireBlurEvent] and [fireFocusEvent] *)

Module DispatchFacts.

Import Dispatch.
Local Open Scope string_scope.
Local Open Scope list_scope.

Section Host.

Variable H : Type.
Variable hostDispatch : Element -> FocusEvent -> H -> bool * H.
Variable preventDefaultCalled : Element -> FocusEvent -> H -> bool.

Hypothesis dom : domDispatch hostDispatch preventDefaultCalled.

Lemma dispatchEvent_spec (element : Element) (event : FocusEvent)
  (d : Dom H) :
  dispatchEvent hostDispatch element event d
  = (fst (hostDispatch element event (host d)),
     {| dispatched := dispatched d ++ [(element, event)];
        host := snd (hostDispatch element event (host d)) |}).
Proof.
  unfold dispatchEvent. destruct (hostDispatch element event (host d)).
  reflexivity.
Qed.

Lemma companion_fields (primary companion : string)
  (eventInit : option FocusEventInit) :
  let first := newFocusEvent primary eventInit in
  let second := newFocusEvent companion (Some (spreadWithBubbles eventInit)) in
  eventBubbles second = true
  /\ eventCancelable second = eventCancelable first
  /\ eventComposed second = eventComposed first
  /\ eventRelatedTarget second = eventRelatedTarget first.
Proof.
  destruct eventInit as [init|]; cbn; auto.
Qed.

Lemma false_iff_canceled (element : Element) (event : FocusEvent) (h : H) :
  fst (hostDispatch element event h) = false
  <-> eventCancelable event = true
      /\ preventDefaultCalled element event h = true.
Proof.
  rewrite dom, negb_false_iff, andb_true_iff. reflexivity.
Qed.

(** C8, amended.  [fireBlurEvent] dispatches exactly two events on the
    element, in this order: a [blur] event built from [eventInit], then a
    [focusout] event whose [bubbles] is [true] whatever [eventInit] says
    (its other members are those of [eventInit]).  It returns the answer
    of the dispatch of the [blur] event, which is [false] if and only if
    that event is cancelable ([eventInit.cancelable] is [true]) and some
    listener called [preventDefault] on it, else [true].  [fireFocusEvent]
    does the same with [focus] and [focusin]. *)
Theorem fire_blur_focus_two_stage (element : Element)
  (eventInit : option FocusEventInit) (d : Dom H) :
  (pairDispatched hostDispatch "blur" "focusout" element eventInit d
     (fireBlurEvent hostDispatch element eventInit d)
   /\ falseIffCanceled preventDefaultCalled "blur" element eventInit d
        (fireBlurEvent hostDispatch element eventInit d))
  /\ (pairDispatched hostDispatch "focus" "focusin" element eventInit d
        (fireFocusEvent hostDispatch element eventInit d)
      /\ falseIffCanceled preventDefaultCalled "focus" element eventInit d
           (fireFocusEvent hostDispatch element eventInit d)).
Proof.
  unfold pairDispatched, falseIffCanceled, fireBlurEvent, fireFocusEvent.
  rewrite !dispatchEvent_spec. cbn [fst snd dispatched host].
  rewrite <- !app_assoc. cbn [app].
  split; (split; [|apply false_iff_canceled]).
  - destruct (companion_fields "blur" "focusout" eventInit)
      as (Hb & Hc & Hm & Hr).
    repeat split; auto; destruct eventInit; reflexivity.
  - destruct (companion_fields "focus" "focusin" eventInit)
      as (Hb & Hc & Hm & Hr).
    repeat split; auto; destruct eventInit; reflexivity.
Qed.

End Host.

Lemma listenerDispatch_dom :
  domDispatch listenerDispatch listenerCalledPreventDefault.
Proof. intros element event h. reflexivity. Qed.

Lemma fire_blur_focus_two_stage_witness :
  domDispatch listenerDispatch listenerCalledPreventDefault
  /\ (pairDispatched listenerDispatch "blur" "focusout" 3
        (Some cancelableInit) preventingDom
        (fireBlurEvent listenerDispatch 3 (Some cancelableInit) preventingDom)
      /\ falseIffCanceled listenerCalledPreventDefault "blur" 3
           (Some cancelableInit) preventingDom
           (fireBlurEvent listenerDispatch 3 (Some cancelableInit)
              preventingDom))
  /\ (pairDispatched listenerDispatch "focus" "focusin" 3
        (Some cancelableInit) preventingDom
        (fireFocusEvent listenerDispatch 3 (Some cancelableInit) preventingDom)
      /\ falseIffCanceled listenerCalledPreventDefault "focus" 3
           (Some cancelableInit) preventingDom
           (fireFocusEvent listenerDispatch 3 (Some cancelableInit)
              preventingDom)).
Proof.
  split; [exact listenerDispatch_dom|].
  exact (fire_blur_focus_two_stage listenerDispatch_dom 3
           (Some cancelableInit) preventingDom).
Defined.

(** C8, as stated, fails: [fireBlurEvent(element)] builds a blur event that
    is not cancelable; a listener calls [preventDefault] on it, and the
    helper returns [true]. *)
Lemma blur_not_cancelable_returns_true :
  domDispatch listenerDispatch listenerCalledPreventDefault
  /\ listenerCalledPreventDefault 3 (newFocusEvent "blur" None)
       (host preventingDom) = true
  /\ fst (fireBlurEvent listenerDispatch 3 None preventingDom) = true
  /\ ~ falseIffPreventDefaultCalled listenerCalledPreventDefault "blur" 3
         None preventingDom
         (fireBlurEvent listenerDispatch 3 None preventingDom).
Proof.
  split; [exact listenerDispatch_dom|].
  split; [reflexivity|]. split; [reflexivity|].
  intros [_ Hcalled]. specialize (Hcalled eq_refl). discriminate Hcalled.
Qed.

Example cancelable_blur_prevented :
  fst (fireBlurEvent listenerDispatch 3 (Some cancelableInit) preventingDom)
  = false
  /\ fst (fireFocusEvent listenerDispatch 3 (Some cancelableInit) preventingDom)
     = true.
Proof. split; reflexivity. Qed.

End DispatchFacts.

(** ** [addGlobalEventListener] *)

Module FramesFacts.

Import Js Frames.
Local Open Scope string_scope.
Local Open Scope list_scope.

(** Induction on a window with the property known for its frames. *)
Lemma Window_frames_ind (P : Window -> Prop) :
  (forall (id : nat) (g fg : bool) (fs : list Window),
     Forall P fs -> P (mkWindow id g fg fs)) ->
  forall scope : Window, P scope.
Proof.
  intros step. fix self 1. intros [id g fg fs]. apply step.
  induction fs as [|f fs IHfs]; constructor.
  - apply self.
  - exact IHfs.
Qed.

Section Walk.

Variable type : string.
Variable listener : ListenerId.
Variable options : option Options.

(** The loop of the [try] block, on its own. *)
Fixpoint eachFrame (frames : list Window) (children : list Remover)
  (w : World) : Completion unit * list Remover * World :=
  match frames with
  | [] => (Normal tt, children, w)
  | frame :: rest =>
      match addGlobalEventListener type listener options frame w with
      | (Throw e, w) => (Throw e, children, w)
      | (Normal remove, w) => eachFrame rest (children ++ [remove]) w
      end
  end.

(** [catch {}]: the function goes on normally however the [try] block
    ended. *)
Lemma catch_drops (A : Type) (k : list Remover -> A)
  (r : Completion unit * list Remover * World) :
  (let '(tried, children, w) := r in
   match
     match tried with
     | Normal _ => Normal tt
     | Throw _ => Normal tt
     end
   with
   | Throw e => (Throw e, w)
   | Normal _ => (Normal (k children), w)
   end)
  = (let '(tried, children, w) := r in (Normal (k children), w)).
Proof.
  destruct r as [[tried children] w]. destruct tried; reflexivity.
Qed.

(** The body of [addGlobalEventListener], statement by statement. *)
Lemma addGlobalEventListener_unfold (scope : Window) (w : World) :
  addGlobalEventListener type listener options scope w
  = let '(tried, children, w) :=
      match windowAddEventListener scope type listener options w with
      | (Throw e, w) => (Throw e, [], w)
      | (Normal _, w) =>
          match windowFrames scope with
          | Throw e => (Throw e, [], w)
          | Normal frames => eachFrame frames [] w
          end
      end in
    (Normal (mkRemover scope type listener options children), w).
Proof.
  destruct scope as [id g fg fs]. cbn.
  destruct g; cbn; [reflexivity|].
  destruct fg; cbn; [reflexivity|].
  exact (catch_drops
           (mkRemover (mkWindow id false false fs) type listener options)
           (eachFrame fs []
              (attach type listener options w (mkWindow id false false fs)))).
Qed.

(** The loop of the returned function, on its own. *)
Fixpoint eachChild (children : list Remover) (w : World)
  : Completion unit * World :=
  match children with
  | [] => (Normal tt, w)
  | remove :: rest =>
      match runRemover remove w with
      | (Throw e, w) => (Throw e, w)
      | (Normal _, w) => eachChild rest w
      end
  end.

Lemma runRemover_unfold (scope : Window) (type' : string)
  (listener' : ListenerId) (options' : option Options)
  (children : list Remover) (w : World) :
  runRemover (mkRemover scope type' listener' options' children) w
  = eachChild children
      (snd (windowRemoveEventListener scope type' listener' options' w)).
Proof.
  cbn. destruct (windowRemoveEventListener scope type' listener' options' w)
    as [[u|e] w']; reflexivity.
Qed.

(** The function the walk returns for a window. *)
Fixpoint removerOf (scope : Window) : Remover :=
  match scope with
  | mkWindow _ g fg fs =>
      mkRemover scope type listener options
        (if g then [] else if fg then [] else map removerOf fs)
  end.

Definition attachAll (xs : list Window) (w : World) : World :=
  fold_left (attach type listener options) xs w.

Definition detachAll (xs : list Window) (w : World) : World :=
  fold_left (detach type listener options) xs w.

Lemma eachFrame_walks (fs : list Window) :
  Forall (fun f => forall w,
            addGlobalEventListener type listener options f w
            = (Normal (removerOf f), attachAll (reached f) w)) fs ->
  forall (children : list Remover) (w : World),
    eachFrame fs children w
    = (Normal tt, children ++ map removerOf fs,
       attachAll (flat_map reached fs) w).
Proof.
  induction 1 as [|f fs Hf _ IH]; intros children w; cbn.
  - rewrite app_nil_r. reflexivity.
  - rewrite Hf, IH, <- app_assoc. cbn.
    unfold attachAll. rewrite fold_left_app. reflexivity.
Qed.

(** The walk never throws; it attaches to the reached windows in order
    and returns their removers. *)
Lemma addGlobalEventListener_walks (scope : Window) :
  forall w : World,
    addGlobalEventListener type listener options scope w
    = (Normal (removerOf scope), attachAll (reached scope) w).
Proof.
  induction scope as [id g fg fs IH] using Window_frames_ind. intros w.
  rewrite addGlobalEventListener_unfold.
  unfold windowAddEventListener, windowFrames. cbn [guarded].
  destruct g; cbn; [reflexivity|].
  destruct fg; cbn; [reflexivity|].
  rewrite (eachFrame_walks IH). reflexivity.
Qed.

Lemma eachChild_walks (fs : list Window) :
  Forall (fun f => forall w,
            runRemover (removerOf f) w
            = (Normal tt, detachAll (reached f) w)) fs ->
  forall w : World,
    eachChild (map removerOf fs) w
    = (Normal tt, detachAll (flat_map reached fs) w).
Proof.
  induction 1 as [|f fs Hf _ IH]; intros w; cbn.
  - reflexivity.
  - rewrite Hf, IH. unfold detachAll. rewrite fold_left_app. reflexivity.
Qed.

(** The returned function never throws; it detaches from the reached
    windows in order. *)
Lemma runRemover_walks (scope : Window) :
  forall w : World,
    runRemover (removerOf scope) w
    = (Normal tt, detachAll (reached scope) w).
Proof.
  induction scope as [id g fg fs IH] using Window_frames_ind. intros w.
  cbn [removerOf]. rewrite runRemover_unfold.
  unfold windowRemoveEventListener. cbn [guarded reached].
  destruct g; cbn [snd]; [reflexivity|].
  destruct fg; [reflexivity|].
  rewrite (eachChild_walks IH). reflexivity.
Qed.

(** *** Attached and detached *)

Lemma attached_attach (x y : Window) (w : World) :
  attached x type listener options w = true ->
  attached x type listener options (attach type listener options w y) = true.
Proof.
  intros Hx. unfold attach.
  destruct (attached y type listener options w); [assumption|].
  unfold attached in *. rewrite existsb_app, Hx. reflexivity.
Qed.

Lemma sameRegistration_refl (id : nat) (ty : string) (l : ListenerId)
  (cap onc : bool) :
  sameRegistration id ty l cap (Build_Registration id ty l cap onc) = true.
Proof.
  unfold sameRegistration. cbn.
  rewrite Nat.eqb_refl, String.eqb_refl, Nat.eqb_refl, Bool.eqb_reflx.
  reflexivity.
Qed.

Lemma attach_attached (x : Window) (w : World) :
  attached x type listener options (attach type listener options w x) = true.
Proof.
  unfold attach.
  destruct (attached x type listener options w) eqn:Hx; [assumption|].
  unfold attached. rewrite existsb_app. cbn.
  rewrite sameRegistration_refl, orb_true_r. reflexivity.
Qed.

Lemma attachAll_keeps (x : Window) (xs : list Window) :
  forall w : World,
    attached x type listener options w = true ->
    attached x type listener options (attachAll xs w) = true.
Proof.
  induction xs as [|y xs IH]; intros w Hx; cbn; [assumption|].
  apply IH, attached_attach, Hx.
Qed.

Lemma attachAll_attached (x : Window) (xs : list Window) :
  In x xs ->
  forall w : World, attached x type listener options (attachAll xs w) = true.
Proof.
  induction xs as [|y xs IH]; intros Hin w; [contradiction|].
  destruct Hin as [-> | Hin]; cbn.
  - apply attachAll_keeps, attach_attached.
  - apply IH, Hin.
Qed.

Lemma detached_detach (x y : Window) (w : World) :
  attached x type listener options w = false ->
  attached x type listener options (detach type listener options w y) = false.
Proof.
  unfold attached, detach. intros Hx.
  induction w as [|r w IH]; cbn in *; [reflexivity|].
  apply orb_false_iff in Hx as [Hr Hw].
  destruct (sameRegistration (windowId y) type listener (captureOf options) r);
    cbn; [auto|].
  rewrite Hr. cbn. auto.
Qed.

Lemma detach_detached (x : Window) (w : World) :
  attached x type listener options (detach type listener options w x) = false.
Proof.
  unfold attached, detach.
  induction w as [|r w IH]; cbn; [reflexivity|].
  destruct (sameRegistration (windowId x) type listener (captureOf options) r)
    eqn:Hr; cbn; [assumption|].
  rewrite Hr. cbn. assumption.
Qed.

Lemma detachAll_keeps (x : Window) (xs : list Window) :
  forall w : World,
    attached x type listener options w = false ->
    attached x type listener options (detachAll xs w) = false.
Proof.
  induction xs as [|y xs IH]; intros w Hx; cbn; [assumption|].
  apply IH, detached_detach, Hx.
Qed.

Lemma detachAll_detached (x : Window) (xs : list Window) :
  In x xs ->
  forall w : World, attached x type listener options (detachAll xs w) = false.
Proof.
  induction xs as [|y xs IH]; intros Hin w; [contradiction|].
  destruct Hin as [-> | Hin]; cbn.
  - apply detachAll_keeps, detach_detached.
  - apply IH, Hin.
Qed.

End Walk.

(** *** The reached windows are the accessible ones *)

Lemma reached_unfold (root : Window) :
  reached root
  = if guarded root then []
    else root :: (if framesGuarded root then []
                  else flat_map reached (frames root)).
Proof. destruct root; reflexivity. Qed.

Lemma accessible_reached (root x : Window) :
  Accessible root x -> In x (reached root).
Proof.
  induction 1 as [root Hg | root frame x Hg Hfg Hin _ IH];
    rewrite reached_unfold, Hg.
  - left. reflexivity.
  - right. rewrite Hfg. apply in_flat_map. exists frame. auto.
Qed.

Lemma reached_accessible (root : Window) :
  forall x : Window, In x (reached root) -> Accessible root x.
Proof.
  induction root as [id g fg fs IH] using Window_frames_ind.
  intros x Hin. rewrite reached_unfold in Hin. cbn in Hin.
  destruct g; [contradiction|].
  destruct Hin as [<- | Hin]; [now constructor|].
  destruct fg; [contradiction|].
  apply in_flat_map in Hin as (f & Hf & Hx).
  rewrite Forall_forall in IH.
  apply accessible_frame with (frame := f); auto.
Qed.

(** C4.  Whatever frames of the tree throw on [addEventListener] or on
    reading [frames], [addGlobalEventListener] returns normally (no
    exception reaches the caller), and afterwards the listener is attached
    to every accessible window: the root scope when it does not throw, and
    every window reached from it through frames that do not throw.  A
    throwing frame elsewhere in the tree (a sibling, or a frame below a
    sibling) takes no part in whether a window is accessible.  The host is
    left with exactly these attachments, made in the order of the walk. *)
Theorem addGlobalEventListener_isolates_failures (type : string)
  (listener : ListenerId) (options : option Options) (scope : Window)
  (w : World) :
  exists (remove : Remover) (w' : World),
    addGlobalEventListener type listener options scope w = (Normal remove, w')
    /\ (forall x : Window,
          Accessible scope x -> attached x type listener options w' = true)
    /\ w' = fold_left (attach type listener options) (reached scope) w
    /\ (forall x : Window, In x (reached scope) <-> Accessible scope x).
Proof.
  exists (removerOf type listener options scope),
         (attachAll type listener options (reached scope) w).
  split; [apply addGlobalEventListener_walks|].
  split; [|split; [reflexivity|]].
  - intros x Hx. apply attachAll_attached, accessible_reached, Hx.
  - intros x. split; [apply reached_accessible | apply accessible_reached].
Qed.

(** C5.  The function [addGlobalEventListener] returns can be invoked in
    any later state of the host: it returns normally (no exception reaches
    the caller), and afterwards the listener is attached to none of the
    windows the attachment succeeded on: the root scope and, recursively,
    the frames reached from it. *)
Theorem removal_detaches_every_attached_window (type : string)
  (listener : ListenerId) (options : option Options) (scope : Window)
  (w : World) :
  exists (remove : Remover) (w1 : World),
    addGlobalEventListener type listener options scope w = (Normal remove, w1)
    /\ forall w2 : World,
         exists w3 : World,
           runRemover remove w2 = (Normal tt, w3)
           /\ (forall x : Window,
                 Accessible scope x ->
                 attached x type listener options w3 = false)
           /\ w3 = fold_left (detach type listener options) (reached scope) w2.
Proof.
  exists (removerOf type listener options scope),
         (attachAll type listener options (reached scope) w).
  split; [apply addGlobalEventListener_walks|].
  intros w2. exists (detachAll type listener options (reached scope) w2).
  split; [apply runRemover_walks|].
  split; [|reflexivity].
  intros x Hx. apply detachAll_detached, accessible_reached, Hx.
Qed.

(** The case of the description: a window with one accessible and one
    throwing child frame.  The listener is attached to the root and to the
    accessible child, and the remover detaches both. *)
Definition accessibleChild : Window := mkWindow 1 false false [].
Definition throwingChild : Window := mkWindow 2 true true [].
Definition top : Window := mkWindow 0 false false [throwingChild; accessibleChild].

Example one_throwing_child :
  exists remove : Remover,
    addGlobalEventListener "click" 7 None top []
    = (Normal remove,
       [{| onWindow := 0; eventType := "click"; listener := 7;
           capture := false; once := false |};
        {| onWindow := 1; eventType := "click"; listener := 7;
           capture := false; once := false |}])
    /\ runRemover remove
         (snd (addGlobalEventListener "click" 7 None top []))
       = (Normal tt, []).
Proof. eexists. split; reflexivity. Qed.

End FramesFacts.

(** ** [queueBeforeEvent] *)

Module QueueFacts.

Import Js Queue.
Local Open Scope string_scope.
Local Open Scope list_scope.

(** *** Equality tests *)

Lemma api_eqb_eq (a b : TimerApi) : api_eqb a b = true <-> a = b.
Proof. destruct a, b; cbn; split; congruence. Qed.

Lemma api_eqb_refl (a : TimerApi) : api_eqb a a = true.
Proof. destruct a; reflexivity. Qed.

Lemma closure_eqb_eq (f g : Closure) : closure_eqb f g = true <-> f = g.
Proof.
  destruct f as [s|s], g as [s'|s']; cbn; rewrite ?Nat.eqb_eq;
    split; congruence.
Qed.

Lemma closure_eqb_refl (f : Closure) : closure_eqb f f = true.
Proof. apply closure_eqb_eq. reflexivity. Qed.

Lemma bool_eqb_eq (a b : bool) : Bool.eqb a b = true <-> a = b.
Proof. destruct a, b; cbn; split; congruence. Qed.

Lemma listener_eqb_eq (l m : Listener) : listener_eqb l m = true <-> l = m.
Proof.
  unfold listener_eqb, sameListener.
  rewrite !andb_true_iff, Nat.eqb_eq, String.eqb_eq, closure_eqb_eq,
    !bool_eqb_eq.
  destruct l, m; cbn. split.
  - intros [[[[-> ->] ->] ->] ->]. reflexivity.
  - intros E. injection E as -> -> -> -> ->. auto.
Qed.

Lemma listener_eqb_refl (l : Listener) : listener_eqb l l = true.
Proof. apply listener_eqb_eq. reflexivity. Qed.

Lemma registered_in (l : Listener) (w : World) :
  registered l w = true <-> In l (listeners w).
Proof.
  unfold registered. rewrite existsb_exists. split.
  - intros (m & Hm & E). apply listener_eqb_eq in E. subst. assumption.
  - intros Hl. exists l. split; [assumption | apply listener_eqb_refl].
Qed.

Lemma canceller_eqb_eq (c d : Canceller) : canceller_eqb c d = true <-> c = d.
Proof.
  unfold canceller_eqb.
  destruct c as [i|i], d as [j|j]; cbn; rewrite ?Nat.eqb_eq;
    split; congruence.
Qed.

(** *** Lists under [filter] *)

Lemma filter_comm (A : Type) (p q : A -> bool) (l : list A) :
  filter p (filter q l) = filter q (filter p l).
Proof.
  induction l as [|x l IH]; cbn; [reflexivity|].
  destruct (p x) eqn:Hp, (q x) eqn:Hq; cbn; rewrite ?Hp, ?Hq, IH; reflexivity.
Qed.

Lemma filter_all (A : Type) (p : A -> bool) (l : list A) :
  (forall x, In x l -> p x = true) -> filter p l = l.
Proof.
  induction l as [|x l IH]; cbn; intros Hall; [reflexivity|].
  rewrite (Hall x (or_introl eq_refl)), IH; auto.
Qed.

Lemma filter_none (A : Type) (p : A -> bool) (l : list A) :
  (forall x, In x l -> p x = false) -> filter p l = [].
Proof.
  induction l as [|x l IH]; cbn; intros Hall; [reflexivity|].
  rewrite (Hall x (or_introl eq_refl)), IH; auto.
Qed.

Lemma filter_single_in (A : Type) (p : A -> bool) (l : list A) (a x : A) :
  filter p l = [a] -> In x l -> p x = true -> x = a.
Proof.
  intros Hf Hin Hp.
  assert (Hx : In x (filter p l)) by (apply filter_In; auto).
  rewrite Hf in Hx. destruct Hx as [E | []]. congruence.
Qed.

Lemma filter_single_has (A : Type) (p : A -> bool) (l : list A) (a : A) :
  filter p l = [a] -> In a l /\ p a = true.
Proof.
  intros Hf. apply filter_In. rewrite Hf. left. reflexivity.
Qed.

Lemma existsb_filter (A : Type) (p q : A -> bool) (l : list A) :
  existsb p (filter q l) = existsb (fun x => q x && p x) l.
Proof.
  induction l as [|x l IH]; cbn; [reflexivity|].
  destruct (q x); cbn; rewrite IH; reflexivity.
Qed.

Lemma setTimers_same (w : World) : setTimers (timers w) w = w.
Proof. destruct w; reflexivity. Qed.

(** *** What the primitives leave alone *)

Lemma runCanceller_clear (c : Canceller) (w : World) :
  runCanceller c w = clearTimer (fst (timerOf c)) (snd (timerOf c)) w.
Proof. destruct c; reflexivity. Qed.

Lemma callsOf_invoke (s s' : nat) (cb : CallbackId) (w : World) :
  callsOf s (invoke s' cb w)
  = callsOf s w ++ (if (s' =? s)%nat then [(s', cb)] else []).
Proof.
  unfold callsOf, invoke. cbn. rewrite filter_app. cbn.
  destruct (s' =? s)%nat; reflexivity.
Qed.

Section Race.

(** One call [queueBeforeEvent(e, ty, cb, tmo)]: its scope [s], the handle
    [c] it returned and the timer [tm] it created. *)
Variable s : nat.
Variable e : Element.
Variable ty : string.
Variable cb : CallbackId.
Variable tmo : option number.
Variable c : Canceller.
Variable tm : Timer.

Hypothesis tm_ours : isTimer (fst (timerOf c)) (snd (timerOf c)) tm = true.
Hypothesis tm_handler : handler tm = OnTimer s.

Definition theScope : Scope :=
  {| element := e; type := ty; callback := cb; timeout := tmo;
     cancelTimer := c |}.

Definition theListener : Listener :=
  {| target := e; eventType := ty; listener := CallSync s; capture := true;
     once := true |}.

(** A timer that is the call's, by its identifier or by its handler. *)
Definition ours (t : Timer) : bool :=
  isTimer (fst (timerOf c)) (snd (timerOf c)) t || mentions s (handler t).

Definition hearsOurs (l : Listener) : bool := mentions s (listener l).

(** The scope of the call exists, its timer identifier has been handed
    out, and no other scope's [cancelTimer] names its timer. *)
Record Base (w : World) : Prop := {
  base_scope : nth_error (scopes w) s = Some theScope;
  base_id : idBelow w (fst (timerOf c)) (snd (timerOf c)) = true;
  base_others :
    forall (s' : nat) (sc : Scope),
      nth_error (scopes w) s' = Some sc -> s' <> s ->
      canceller_eqb (cancelTimer sc) c = false
}.

(** Before a trigger has fired: both are in place, the callback has not
    run. *)
Record Armed (w : World) : Prop := {
  armed_base : Base w;
  armed_calls : callsOf s w = [];
  armed_timer : filter ours (timers w) = [tm];
  armed_listener : filter hearsOurs (listeners w) = [theListener]
}.

(** After a trigger has fired: both are gone, the callback has run once. *)
Record Done (w : World) : Prop := {
  done_base : Base w;
  done_calls : callsOf s w = [(s, cb)];
  done_timer : filter ours (timers w) = [];
  done_listener : filter hearsOurs (listeners w) = []
}.

(** [w'] comes from [w] by what the functions of other calls do: they
    remove timers and listeners, never the call's, and record their own
    invocations. *)
Record Quiet (w w' : World) : Prop := {
  quiet_scopes : scopes w' = scopes w;
  quiet_timeout : nextTimeoutId w' = nextTimeoutId w;
  quiet_frame : nextFrameId w' = nextFrameId w;
  quiet_calls : callsOf s w' = callsOf s w;
  quiet_timers :
    exists q : Timer -> bool, timers w' = filter q (timers w) /\ q tm = true;
  quiet_listeners :
    exists r : Listener -> bool,
      listeners w' = filter r (listeners w) /\ r theListener = true
}.

Lemma filter_filter (A : Type) (p q : A -> bool) (l : list A) :
  filter q (filter p l) = filter (fun x => p x && q x) l.
Proof.
  induction l as [|x l IH]; cbn; [reflexivity|].
  destruct (p x); cbn; [destruct (q x)|]; rewrite IH; reflexivity.
Qed.

Lemma quiet_refl (w : World) : Quiet w w.
Proof.
  constructor; try reflexivity.
  - exists (fun _ => true). split; [|reflexivity].
    symmetry. apply filter_all. reflexivity.
  - exists (fun _ => true). split; [|reflexivity].
    symmetry. apply filter_all. reflexivity.
Qed.

Lemma quiet_trans (w1 w2 w3 : World) :
  Quiet w1 w2 -> Quiet w2 w3 -> Quiet w1 w3.
Proof.
  intros [Hs1 Ht1 Hf1 Hc1 (q1 & Hq1 & Hk1) (r1 & Hr1 & Hl1)]
         [Hs2 Ht2 Hf2 Hc2 (q2 & Hq2 & Hk2) (r2 & Hr2 & Hl2)].
  constructor; try congruence.
  - exists (fun t => q1 t && q2 t). split.
    + rewrite Hq2, Hq1. apply filter_filter.
    + rewrite Hk1, Hk2. reflexivity.
  - exists (fun l => r1 l && r2 l). split.
    + rewrite Hr2, Hr1. apply filter_filter.
    + rewrite Hl1, Hl2. reflexivity.
Qed.

Lemma quiet_base (w w' : World) : Base w -> Quiet w w' -> Base w'.
Proof.
  intros [Hsc Hid Hoth] [Hs Ht Hf _ _ _].
  constructor.
  - rewrite Hs. assumption.
  - revert Hid. unfold idBelow. rewrite Ht, Hf. auto.
  - intros s' sc. rewrite Hs. apply Hoth.
Qed.

Lemma quiet_armed (w w' : World) : Armed w -> Quiet w w' -> Armed w'.
Proof.
  intros [Hb Hc Ht Hl] Hq.
  pose proof (quiet_base Hb Hq) as Hb'.
  destruct Hq as [_ _ _ Hc' (q & Hq & Hk) (r & Hr & Hk')].
  constructor; [assumption | congruence | |].
  - rewrite Hq, filter_comm, Ht. cbn. rewrite Hk. reflexivity.
  - rewrite Hr, filter_comm, Hl. cbn. rewrite Hk'. reflexivity.
Qed.

Lemma quiet_done (w w' : World) : Done w -> Quiet w w' -> Done w'.
Proof.
  intros [Hb Hc Ht Hl] Hq.
  pose proof (quiet_base Hb Hq) as Hb'.
  destruct Hq as [_ _ _ Hc' (q & Hq & Hk) (r & Hr & Hk')].
  constructor; [assumption | congruence | |].
  - rewrite Hq, filter_comm, Ht. reflexivity.
  - rewrite Hr, filter_comm, Hl. reflexivity.
Qed.

Lemma tm_is (a : TimerApi) (i : nat) :
  isTimer a i tm
  = api_eqb (fst (timerOf c)) a && (snd (timerOf c) =? i)%nat.
Proof.
  unfold isTimer in *. apply andb_true_iff in tm_ours as [Ha Hi].
  apply api_eqb_eq in Ha. apply Nat.eqb_eq in Hi. rewrite Ha, Hi.
  reflexivity.
Qed.

Lemma clearTimer_quiet (a : TimerApi) (i : nat) (w : World) :
  api_eqb (fst (timerOf c)) a && (snd (timerOf c) =? i)%nat = false ->
  Quiet w (clearTimer a i w).
Proof.
  intros Hne. constructor; try reflexivity.
  - exists (fun t => negb (isTimer a i t)). split; [reflexivity|].
    rewrite tm_is, Hne. reflexivity.
  - exists (fun _ => true). split; [|reflexivity].
    symmetry. apply filter_all. reflexivity.
Qed.

Lemma canceller_eqb_timer (d : Canceller) :
  canceller_eqb d c = false ->
  api_eqb (fst (timerOf c)) (fst (timerOf d))
  && (snd (timerOf c) =? snd (timerOf d))%nat = false.
Proof.
  unfold canceller_eqb. intros Hne.
  destruct c as [i|i], d as [j|j]; cbn in *; try reflexivity;
    rewrite Nat.eqb_sym; assumption.
Qed.

Lemma runCanceller_quiet (d : Canceller) (w : World) :
  canceller_eqb d c = false -> Quiet w (runCanceller d w).
Proof.
  intros Hne. rewrite runCanceller_clear.
  apply clearTimer_quiet, canceller_eqb_timer, Hne.
Qed.

Lemma removeEventListener_quiet (e' : Element) (ty' : string) (f : Closure)
  (cap : bool) (w : World) :
  mentions s f = false -> Quiet w (removeEventListener e' ty' f cap w).
Proof.
  intros Hf. constructor; try reflexivity.
  - exists (fun _ => true). split; [|reflexivity].
    symmetry. apply filter_all. reflexivity.
  - exists (fun l => negb (sameListener e' ty' f cap l)). split; [reflexivity|].
    destruct (closure_eqb (CallSync s) f) eqn:E.
    + apply closure_eqb_eq in E. subst f. cbn in Hf.
      rewrite Nat.eqb_refl in Hf. discriminate.
    + unfold sameListener, theListener.
      cbn [target eventType listener capture].
      rewrite E, andb_false_r. reflexivity.
Qed.

Lemma dropListener_quiet (l : Listener) (w : World) :
  hearsOurs l = false -> Quiet w (dropListener l w).
Proof.
  intros Hl. constructor; try reflexivity.
  - exists (fun _ => true). split; [|reflexivity].
    symmetry. apply filter_all. reflexivity.
  - exists (fun m => negb (listener_eqb m l)). split; [reflexivity|].
    destruct (listener_eqb theListener l) eqn:E; [|reflexivity].
    apply listener_eqb_eq in E. subst l. unfold hearsOurs in Hl. cbn in Hl.
    rewrite Nat.eqb_refl in Hl. discriminate.
Qed.

Lemma invoke_quiet (s' : nat) (cb' : CallbackId) (w : World) :
  (s' =? s)%nat = false -> Quiet w (invoke s' cb' w).
Proof.
  intros Hs. constructor; try reflexivity.
  - rewrite callsOf_invoke, Hs, app_nil_r. reflexivity.
  - exists (fun _ => true). split; [|reflexivity].
    symmetry. apply filter_all. reflexivity.
  - exists (fun _ => true). split; [|reflexivity].
    symmetry. apply filter_all. reflexivity.
Qed.

(** Running a function of another call. *)
Lemma run_quiet (f : Closure) (w : World) :
  Base w -> mentions s f = false -> Quiet w (run f w).
Proof.
  intros Hb Hf. destruct f as [s'|s']; cbn in Hf; cbn [run];
    destruct (nth_error (scopes w) s') as [sc|] eqn:Hsc;
    try apply quiet_refl.
  - eapply quiet_trans.
    + apply (removeEventListener_quiet (element sc) (type sc) (CallSync s')
               true w). exact Hf.
    + apply invoke_quiet, Hf.
  - eapply quiet_trans.
    + apply runCanceller_quiet. apply (base_others Hb Hsc).
      apply Nat.eqb_neq, Hf.
    + apply invoke_quiet, Hf.
Qed.

(** *** The two triggers *)

Lemma base_same (w w' : World) :
  Base w ->
  scopes w' = scopes w ->
  nextTimeoutId w' = nextTimeoutId w ->
  nextFrameId w' = nextFrameId w ->
  Base w'.
Proof.
  intros [Hsc Hid Hoth] Hs Ht Hf. constructor.
  - rewrite Hs. assumption.
  - revert Hid. unfold idBelow. rewrite Ht, Hf. auto.
  - intros s' sc. rewrite Hs. apply Hoth.
Qed.

Lemma theListener_hears : hearsOurs theListener = true.
Proof. unfold hearsOurs. cbn. apply Nat.eqb_refl. Qed.

Lemma sameListener_theListener :
  sameListener e ty (CallSync s) true theListener = true.
Proof.
  unfold sameListener. cbn.
  rewrite !Nat.eqb_refl, String.eqb_refl. reflexivity.
Qed.

(** The listener fires first: [callSync] clears the timer and calls the
    callback; the host has removed the [once] listener. *)
Lemma fire_by_event (w : World) :
  Armed w -> Done (run (CallSync s) (dropListener theListener w)).
Proof.
  intros [Hb Hc Ht Hl]. cbn [run].
  change (scopes (dropListener theListener w)) with (scopes w).
  rewrite (base_scope Hb). cbn [cancelTimer callback theScope].
  rewrite runCanceller_clear.
  constructor.
  - eapply base_same; [exact Hb | reflexivity ..].
  - rewrite callsOf_invoke, Nat.eqb_refl.
    change (callsOf s (clearTimer _ _ _)) with (callsOf s w).
    rewrite Hc. reflexivity.
  - change (timers (invoke _ _ _))
      with (filter (fun t => negb (isTimer (fst (timerOf c))
                                     (snd (timerOf c)) t)) (timers w)).
    rewrite filter_comm, Ht. cbn. rewrite tm_ours. reflexivity.
  - change (listeners (invoke _ _ _))
      with (filter (fun m => negb (listener_eqb m theListener)) (listeners w)).
    rewrite filter_comm, Hl. cbn [filter].
    rewrite listener_eqb_refl. reflexivity.
Qed.

(** The timer fires first: its handler removes the listener and calls the
    callback; the host has retired the timer. *)
Lemma fire_by_timer (w : World) :
  Armed w ->
  Done (run (OnTimer s) (clearTimer (fst (timerOf c)) (snd (timerOf c)) w)).
Proof.
  intros [Hb Hc Ht Hl]. cbn [run].
  change (scopes (clearTimer _ _ w)) with (scopes w).
  rewrite (base_scope Hb). cbn [element type callback theScope].
  constructor.
  - eapply base_same; [exact Hb | reflexivity ..].
  - rewrite callsOf_invoke, Nat.eqb_refl.
    change (callsOf s (removeEventListener _ _ _ _ _)) with (callsOf s w).
    rewrite Hc. reflexivity.
  - change (timers (invoke _ _ _))
      with (filter (fun t => negb (isTimer (fst (timerOf c))
                                     (snd (timerOf c)) t)) (timers w)).
    rewrite filter_comm, Ht. cbn. rewrite tm_ours. reflexivity.
  - change (listeners (invoke _ _ _))
      with (filter (fun l => negb (sameListener e ty (CallSync s) true l))
              (listeners w)).
    rewrite filter_comm, Hl. cbn [filter].
    rewrite sameListener_theListener. reflexivity.
Qed.

Lemma filter_nil_in (A : Type) (p : A -> bool) (l : list A) (x : A) :
  filter p l = [] -> In x l -> p x = false.
Proof.
  intros Hf Hin. destruct (p x) eqn:Hp; [|reflexivity].
  assert (Hx : In x (filter p l)) by (apply filter_In; auto).
  rewrite Hf in Hx. contradiction.
Qed.

(** The host calls a listener of another call. *)
Lemma call_listener_quiet (l : Listener) (w : World) :
  Base w -> hearsOurs l = false ->
  Quiet w (run (listener l) (if once l then dropListener l w else w)).
Proof.
  intros Hb Hl.
  assert (Hq : Quiet w (if once l then dropListener l w else w)).
  { destruct (once l); [apply dropListener_quiet, Hl | apply quiet_refl]. }
  eapply quiet_trans; [exact Hq|].
  apply run_quiet; [apply (quiet_base Hb Hq) | exact Hl].
Qed.

Lemma invokeListeners_done (found : list Listener) :
  forall w : World, Done w -> Done (invokeListeners found w).
Proof.
  induction found as [|l found IH]; intros w Hd; cbn [invokeListeners].
  - assumption.
  - destruct (registered l w) eqn:R; [|apply IH, Hd].
    apply registered_in in R.
    apply IH. apply (quiet_done Hd).
    apply call_listener_quiet; [apply (done_base Hd)|].
    apply (@filter_nil_in _ _ _ _ (done_listener Hd) R).
Qed.

Lemma invokeListeners_armed (found : list Listener) :
  forall w : World,
    Armed w ->
    if existsb (listener_eqb theListener) found
    then Done (invokeListeners found w)
    else Armed (invokeListeners found w).
Proof.
  induction found as [|l found IH]; intros w Ha;
    cbn [invokeListeners existsb].
  - assumption.
  - destruct (registered l w) eqn:R.
    + apply registered_in in R. destruct (hearsOurs l) eqn:Hh.
      * assert (l = theListener)
          by (apply (@filter_single_in _ _ _ _ _ (armed_listener Ha) R Hh)).
        subst l. rewrite listener_eqb_refl. cbn [orb once theListener].
        apply invokeListeners_done.
        change (listener theListener) with (CallSync s).
        apply fire_by_event, Ha.
      * assert (E : listener_eqb theListener l = false).
        { destruct (listener_eqb theListener l) eqn:E; [|reflexivity].
          apply listener_eqb_eq in E. subst l.
          rewrite theListener_hears in Hh. discriminate. }
        rewrite E. cbn [orb]. apply IH. apply (quiet_armed Ha).
        apply call_listener_quiet; [apply (armed_base Ha) | exact Hh].
    + assert (E : listener_eqb theListener l = false).
      { destruct (listener_eqb theListener l) eqn:E; [|reflexivity].
        apply listener_eqb_eq in E. subst l.
        destruct (@filter_single_has _ _ _ _ (armed_listener Ha)) as [Hin _].
        apply registered_in in Hin. congruence. }
      rewrite E. cbn [orb]. apply IH, Ha.
Qed.

Lemma existsb_found (L : Listener) (p : Listener -> bool)
  (l : list Listener) :
  existsb (listener_eqb L) (filter p l) = p L && existsb (listener_eqb L) l.
Proof.
  induction l as [|x l IH]; cbn.
  - rewrite andb_false_r. reflexivity.
  - destruct (listener_eqb L x) eqn:E.
    + apply listener_eqb_eq in E. rewrite <- E.
      destruct (p L) eqn:Hp; cbn.
      * rewrite listener_eqb_refl. reflexivity.
      * rewrite IH. reflexivity.
    + destruct (p x); cbn; rewrite ?E, IH; reflexivity.
Qed.

Lemma eventFires_armed (e' : Element) (ty' : string) (w : World) :
  Armed w ->
  if (e' =? e)%nat && (ty' =? ty)
  then Done (eventFires e' ty' w)
  else Armed (eventFires e' ty' w).
Proof.
  intros Ha. unfold eventFires.
  pose proof (invokeListeners_armed
    (filter capture (filter (hears e' ty') (listeners w))
     ++ filter (fun l => negb (capture l))
          (filter (hears e' ty') (listeners w))) Ha) as Hinv.
  rewrite existsb_app, !existsb_found in Hinv.
  destruct (@filter_single_has _ _ _ _ (armed_listener Ha)) as [Hin _].
  apply registered_in in Hin. unfold registered in Hin. rewrite Hin in Hinv.
  unfold hears in Hinv. cbn [capture target eventType theListener negb andb]
    in Hinv.
  rewrite !andb_true_r, orb_false_r in Hinv.
  rewrite (Nat.eqb_sym e' e), (String.eqb_sym ty' ty). exact Hinv.
Qed.

Lemma eventFires_done (e' : Element) (ty' : string) (w : World) :
  Done w -> Done (eventFires e' ty' w).
Proof. intros Hd. apply invokeListeners_done, Hd. Qed.

Lemma timerFires_armed (a : TimerApi) (i : nat) (w : World) :
  Armed w ->
  if api_eqb a (fst (timerOf c)) && (i =? snd (timerOf c))%nat
  then Done (timerFires a i w)
  else Armed (timerFires a i w).
Proof.
  intros Ha. unfold timerFires.
  destruct (api_eqb a (fst (timerOf c)) && (i =? snd (timerOf c))%nat) eqn:T.
  - apply andb_true_iff in T as [Ta Ti].
    apply api_eqb_eq in Ta. apply Nat.eqb_eq in Ti. subst a i.
    destruct (find _ (timers w)) as [t|] eqn:F.
    + apply find_some in F as [Hin Hit].
      assert (t = tm).
      { apply (@filter_single_in _ _ _ _ _ (armed_timer Ha) Hin).
        unfold ours. rewrite Hit. reflexivity. }
      subst t. rewrite tm_handler. apply fire_by_timer, Ha.
    + destruct (@filter_single_has _ _ _ _ (armed_timer Ha)) as [Hin _].
      apply (find_none _ _ F) in Hin. congruence.
  - assert (T' : api_eqb (fst (timerOf c)) a && (snd (timerOf c) =? i)%nat
                 = false).
    { rewrite Nat.eqb_sym. destruct a, (fst (timerOf c)); exact T. }
    destruct (find _ (timers w)) as [t|] eqn:F; [|exact Ha].
    apply find_some in F as [Hin Hit].
    assert (Ho : ours t = false).
    { destruct (ours t) eqn:Ho; [|reflexivity].
      assert (t = tm) by (apply (@filter_single_in _ _ _ _ _ (armed_timer Ha) Hin Ho)).
      subst t. rewrite tm_is in Hit. congruence. }
    apply orb_false_iff in Ho as [_ Hm].
    apply (quiet_armed Ha). eapply quiet_trans.
    + apply clearTimer_quiet, T'.
    + apply run_quiet; [|exact Hm].
      apply (quiet_base (armed_base Ha)). apply clearTimer_quiet, T'.
Qed.

Lemma timerFires_done (a : TimerApi) (i : nat) (w : World) :
  Done w -> Done (timerFires a i w).
Proof.
  intros Hd. unfold timerFires.
  destruct (find _ (timers w)) as [t|] eqn:F; [|exact Hd].
  apply find_some in F as [Hin Hit].
  pose proof (@filter_nil_in _ _ _ _ (done_timer Hd) Hin) as Ho.
  apply orb_false_iff in Ho as [Hi Hm].
  assert (T' : api_eqb (fst (timerOf c)) a && (snd (timerOf c) =? i)%nat
               = false).
  { destruct (api_eqb (fst (timerOf c)) a && (snd (timerOf c) =? i)%nat)
      eqn:T; [|reflexivity].
    apply andb_true_iff in T as [Ta Ti].
    apply api_eqb_eq in Ta. apply Nat.eqb_eq in Ti. subst a i. congruence. }
  apply (quiet_done Hd). eapply quiet_trans.
  - apply clearTimer_quiet, T'.
  - apply run_quiet; [|exact Hm].
    apply (quiet_base (done_base Hd)). apply clearTimer_quiet, T'.
Qed.

(** *** Another call of [queueBeforeEvent] *)

Lemma idBelow_mono (w w' : World) (a : TimerApi) (i : nat) :
  nextTimeoutId w <= nextTimeoutId w' ->
  nextFrameId w <= nextFrameId w' ->
  idBelow w a i = true -> idBelow w' a i = true.
Proof.
  unfold idBelow. intros Ht Hf. destruct a; rewrite !Nat.ltb_lt; lia.
Qed.

(** What a call adds to the host: one timer with a fresh identifier, its
    scope, and its listener (unless the host holds the same listener
    already). *)
Lemma queue_effect (e' : Element) (ty' : string) (cb' : CallbackId)
  (tmo' : option number) (w : World) :
  let r := queueBeforeEvent e' ty' cb' tmo' w in
  let l' :=
    {| target := e'; eventType := ty'; listener := CallSync (List.length (scopes w));
       capture := true; once := true |} in
  exists t : Timer,
    timers (snd r) = timers w ++ [t]
    /\ handler t = OnTimer (List.length (scopes w))
    /\ timerOf (fst r) = (api t, timerId t)
    /\ idBelow w (api t) (timerId t) = false
    /\ nextTimeoutId w <= nextTimeoutId (snd r)
    /\ nextFrameId w <= nextFrameId (snd r)
    /\ idBelow (snd r) (api t) (timerId t) = true
    /\ scopes (snd r)
       = scopes w ++ [{| element := e'; type := ty'; callback := cb';
                         timeout := tmo'; cancelTimer := fst r |}]
    /\ listeners (snd r)
       = listeners w
         ++ (if existsb (sameListener e' ty' (CallSync (List.length (scopes w))) true)
                  (listeners w)
             then [] else [l'])
    /\ calls (snd r) = calls w
    /\ (api t, delay t)
       = match tmo' with
         | Some ms =>
             if numberToBoolean ms then (Timeout, Some ms)
             else (AnimationFrame, None)
         | None => (AnimationFrame, None)
         end.
Proof.
  unfold queueBeforeEvent, createTimer.
  destruct tmo' as [ms|]; [destruct (numberToBoolean ms)|];
    unfold setTimeout, requestAnimationFrame, pushScope, addEventListener;
    cbn -[existsb sameListener Nat.ltb];
    destruct (existsb _ (listeners w));
    cbn -[existsb sameListener Nat.ltb];
    eexists; (split; [reflexivity|]);
    cbn -[existsb sameListener Nat.ltb];
    rewrite ?app_nil_r, ?Nat.ltb_irrefl;
    repeat split; auto; apply Nat.ltb_lt; lia.
Qed.

Lemma queue_keeps (e' : Element) (ty' : string) (cb' : CallbackId)
  (tmo' : option number) (w : World) :
  Base w ->
  let w' := snd (queueBeforeEvent e' ty' cb' tmo' w) in
  Base w'
  /\ callsOf s w' = callsOf s w
  /\ filter ours (timers w') = filter ours (timers w)
  /\ filter hearsOurs (listeners w') = filter hearsOurs (listeners w).
Proof.
  intros Hb w'. subst w'.
  destruct (queue_effect e' ty' cb' tmo' w)
    as (t & Ht & Hh & Hc & Hfresh & Hnt & Hnf & _ & Hs & Hl & Hcalls & _).
  pose proof Hb as [Hsc Hid Hoth].
  assert (Hlt : s < List.length (scopes w))
    by (apply nth_error_Some; congruence).
  assert (Hnew : isTimer (fst (timerOf c)) (snd (timerOf c)) t = false).
  { destruct (isTimer (fst (timerOf c)) (snd (timerOf c)) t) eqn:E;
      [|reflexivity].
    unfold isTimer in E. apply andb_true_iff in E as [Ea Ei].
    apply api_eqb_eq in Ea. apply Nat.eqb_eq in Ei.
    rewrite Ea, Ei in Hfresh. congruence. }
  repeat split.
  - rewrite Hs, nth_error_app1; assumption.
  - eapply idBelow_mono; eassumption.
  - intros s' sc. rewrite Hs. intros Hsc' Hne.
    destruct (Nat.lt_ge_cases s' (List.length (scopes w))) as [Hlt' | Hge].
    + rewrite nth_error_app1 in Hsc' by assumption. apply (Hoth s' sc Hsc' Hne).
    + rewrite nth_error_app2 in Hsc' by assumption.
      destruct (s' - List.length (scopes w)) as [|k]; cbn in Hsc'.
      * injection Hsc' as <-. cbn [cancelTimer].
        unfold canceller_eqb. rewrite Hc. cbn [fst snd].
        unfold isTimer in Hnew. exact Hnew.
      * destruct k; discriminate.
  - unfold callsOf. rewrite Hcalls. reflexivity.
  - rewrite Ht, filter_app. cbn [filter]. unfold ours at 2.
    rewrite Hnew, Hh. cbn [mentions orb].
    replace (List.length (scopes w) =? s)%nat with false
      by (symmetry; apply Nat.eqb_neq; lia).
    apply app_nil_r.
  - rewrite Hl, filter_app.
    destruct (existsb _ (listeners w)); cbn [filter]; [apply app_nil_r|].
    unfold hearsOurs at 2. cbn [listener mentions].
    replace (List.length (scopes w) =? s)%nat with false
      by (symmetry; apply Nat.eqb_neq; lia).
    apply app_nil_r.
Qed.

Lemma queue_armed (e' : Element) (ty' : string) (cb' : CallbackId)
  (tmo' : option number) (w : World) :
  Armed w -> Armed (snd (queueBeforeEvent e' ty' cb' tmo' w)).
Proof.
  intros [Hb Hc Ht Hl].
  destruct (queue_keeps e' ty' cb' tmo' Hb) as (Hb' & Hc' & Ht' & Hl').
  constructor; congruence.
Qed.

Lemma queue_done (e' : Element) (ty' : string) (cb' : CallbackId)
  (tmo' : option number) (w : World) :
  Done w -> Done (snd (queueBeforeEvent e' ty' cb' tmo' w)).
Proof.
  intros [Hb Hc Ht Hl].
  destruct (queue_keeps e' ty' cb' tmo' Hb) as (Hb' & Hc' & Ht' & Hl').
  constructor; congruence.
Qed.

(** *** One step, and many *)

Lemma step_armed (st : Step) (w : World) :
  Armed w ->
  isCancel c st = false ->
  if isTrigger c e ty st then Done (step st w) else Armed (step st w).
Proof.
  intros Ha Hnc. destruct st as [a i | e' ty' | e' ty' cb' tmo' | d];
    cbn [step isTrigger].
  - apply timerFires_armed, Ha.
  - apply eventFires_armed, Ha.
  - apply queue_armed, Ha.
  - apply (quiet_armed Ha). apply runCanceller_quiet. exact Hnc.
Qed.

Lemma step_done (st : Step) (w : World) :
  Done w -> isCancel c st = false -> Done (step st w).
Proof.
  intros Hd Hnc. destruct st as [a i | e' ty' | e' ty' cb' tmo' | d];
    cbn [step].
  - apply timerFires_done, Hd.
  - apply eventFires_done, Hd.
  - apply queue_done, Hd.
  - apply (quiet_done Hd). apply runCanceller_quiet. exact Hnc.
Qed.

Lemma steps_done (tr : list Step) :
  forall w : World,
    Done w -> existsb (isCancel c) tr = false -> Done (steps tr w).
Proof.
  induction tr as [|st tr IH]; intros w Hd Hnc; cbn in *; [assumption|].
  apply orb_false_iff in Hnc as [Hst Htr].
  apply IH; [|assumption]. apply step_done; assumption.
Qed.

Lemma steps_armed (tr : list Step) :
  forall w : World,
    Armed w ->
    existsb (isCancel c) tr = false ->
    if existsb (isTrigger c e ty) tr then Done (steps tr w)
    else Armed (steps tr w).
Proof.
  induction tr as [|st tr IH]; intros w Ha Hnc; cbn in *; [assumption|].
  apply orb_false_iff in Hnc as [Hst Htr].
  pose proof (step_armed st Ha Hst) as Hstep.
  destruct (isTrigger c e ty st); cbn [orb].
  - apply steps_done; assumption.
  - apply IH; assumption.
Qed.

(** *** After the handle was invoked *)

(** The handle has been invoked before a trigger fired: the timer is gone,
    the listener is not, the callback has not run. *)
Record Disarmed (w : World) : Prop := {
  disarmed_base : Base w;
  disarmed_calls : callsOf s w = [];
  disarmed_timer : filter ours (timers w) = [];
  disarmed_listener : filter hearsOurs (listeners w) = [theListener]
}.

Lemma quiet_disarmed (w w' : World) :
  Disarmed w -> Quiet w w' -> Disarmed w'.
Proof.
  intros [Hb Hc Ht Hl] Hq.
  pose proof (quiet_base Hb Hq) as Hb'.
  destruct Hq as [_ _ _ Hc' (q & Hq & Hk) (r & Hr & Hk')].
  constructor; [assumption | congruence | |].
  - rewrite Hq, filter_comm, Ht. reflexivity.
  - rewrite Hr, filter_comm, Hl. cbn. rewrite Hk'. reflexivity.
Qed.

Lemma clearTimer_disarmed (a : TimerApi) (i : nat) (w : World) :
  Disarmed w -> Disarmed (clearTimer a i w).
Proof.
  intros [Hb Hc Ht Hl]. constructor; try assumption.
  - eapply base_same; [exact Hb | reflexivity ..].
  - cbn [clearTimer setTimers timers]. rewrite filter_comm, Ht. reflexivity.
Qed.

(** Invoking the handle clears the timer and nothing else. *)
Lemma cancel_disarms (w : World) : Armed w -> Disarmed (runCanceller c w).
Proof.
  intros [Hb Hc Ht Hl]. rewrite runCanceller_clear.
  constructor; try assumption.
  - eapply base_same; [exact Hb | reflexivity ..].
  - cbn [clearTimer setTimers timers]. rewrite filter_comm, Ht. cbn.
    rewrite tm_ours. reflexivity.
Qed.

(** The listener left behind fires: [callSync] calls the callback. *)
Lemma fire_disarmed (w : World) :
  Disarmed w -> Done (run (CallSync s) (dropListener theListener w)).
Proof.
  intros [Hb Hc Ht Hl]. cbn [run].
  change (scopes (dropListener theListener w)) with (scopes w).
  rewrite (base_scope Hb). cbn [cancelTimer callback theScope].
  rewrite runCanceller_clear.
  constructor.
  - eapply base_same; [exact Hb | reflexivity ..].
  - rewrite callsOf_invoke, Nat.eqb_refl.
    change (callsOf s (clearTimer _ _ _)) with (callsOf s w).
    rewrite Hc. reflexivity.
  - change (timers (invoke _ _ _))
      with (filter (fun t => negb (isTimer (fst (timerOf c))
                                     (snd (timerOf c)) t)) (timers w)).
    rewrite filter_comm, Ht. reflexivity.
  - change (listeners (invoke _ _ _))
      with (filter (fun m => negb (listener_eqb m theListener)) (listeners w)).
    rewrite filter_comm, Hl. cbn [filter].
    rewrite listener_eqb_refl. reflexivity.
Qed.

Lemma invokeListeners_disarmed (found : list Listener) :
  forall w : World,
    Disarmed w ->
    if existsb (listener_eqb theListener) found
    then Done (invokeListeners found w)
    else Disarmed (invokeListeners found w).
Proof.
  induction found as [|l found IH]; intros w Ha;
    cbn [invokeListeners existsb].
  - assumption.
  - destruct (registered l w) eqn:R.
    + apply registered_in in R. destruct (hearsOurs l) eqn:Hh.
      * assert (l = theListener)
          by (apply (@filter_single_in _ _ _ _ _ (disarmed_listener Ha) R Hh)).
        subst l. rewrite listener_eqb_refl. cbn [orb once theListener].
        apply invokeListeners_done.
        change (listener theListener) with (CallSync s).
        apply fire_disarmed, Ha.
      * assert (E : listener_eqb theListener l = false).
        { destruct (listener_eqb theListener l) eqn:E; [|reflexivity].
          apply listener_eqb_eq in E. subst l.
          rewrite theListener_hears in Hh. discriminate. }
        rewrite E. cbn [orb]. apply IH. apply (quiet_disarmed Ha).
        apply call_listener_quiet; [apply (disarmed_base Ha) | exact Hh].
    + assert (E : listener_eqb theListener l = false).
      { destruct (listener_eqb theListener l) eqn:E; [|reflexivity].
        apply listener_eqb_eq in E. subst l.
        destruct (@filter_single_has _ _ _ _ (disarmed_listener Ha))
          as [Hin _].
        apply registered_in in Hin. congruence. }
      rewrite E. cbn [orb]. apply IH, Ha.
Qed.

Lemma eventFires_disarmed (e' : Element) (ty' : string) (w : World) :
  Disarmed w ->
  if (e' =? e)%nat && (ty' =? ty)
  then Done (eventFires e' ty' w)
  else Disarmed (eventFires e' ty' w).
Proof.
  intros Ha. unfold eventFires.
  pose proof (invokeListeners_disarmed
    (filter capture (filter (hears e' ty') (listeners w))
     ++ filter (fun l => negb (capture l))
          (filter (hears e' ty') (listeners w))) Ha) as Hinv.
  rewrite existsb_app, !existsb_found in Hinv.
  destruct (@filter_single_has _ _ _ _ (disarmed_listener Ha)) as [Hin _].
  apply registered_in in Hin. unfold registered in Hin. rewrite Hin in Hinv.
  unfold hears in Hinv. cbn [capture target eventType theListener negb andb]
    in Hinv.
  rewrite !andb_true_r, orb_false_r in Hinv.
  rewrite (Nat.eqb_sym e' e), (String.eqb_sym ty' ty). exact Hinv.
Qed.

Lemma timerFires_disarmed (a : TimerApi) (i : nat) (w : World) :
  Disarmed w -> Disarmed (timerFires a i w).
Proof.
  intros Hd. unfold timerFires.
  destruct (find _ (timers w)) as [t|] eqn:F; [|exact Hd].
  apply find_some in F as [Hin Hit].
  pose proof (@filter_nil_in _ _ _ _ (disarmed_timer Hd) Hin) as Ho.
  apply orb_false_iff in Ho as [_ Hm].
  pose proof (clearTimer_disarmed a i Hd) as Hd'.
  apply (quiet_disarmed Hd').
  apply run_quiet; [apply (disarmed_base Hd') | exact Hm].
Qed.

Lemma queue_disarmed (e' : Element) (ty' : string) (cb' : CallbackId)
  (tmo' : option number) (w : World) :
  Disarmed w -> Disarmed (snd (queueBeforeEvent e' ty' cb' tmo' w)).
Proof.
  intros [Hb Hc Ht Hl].
  destruct (queue_keeps e' ty' cb' tmo' Hb) as (Hb' & Hc' & Ht' & Hl').
  constructor; congruence.
Qed.

(** Whatever happens next, the callback runs at the next event of the
    type on the element, and not before. *)
Lemma step_disarmed (st : Step) (w : World) :
  Disarmed w ->
  if isEvent e ty st then Done (step st w) else Disarmed (step st w).
Proof.
  intros Hd. destruct st as [a i | e' ty' | e' ty' cb' tmo' | d];
    cbn [step isEvent].
  - apply timerFires_disarmed, Hd.
  - apply eventFires_disarmed, Hd.
  - apply queue_disarmed, Hd.
  - rewrite runCanceller_clear. apply clearTimer_disarmed, Hd.
Qed.

Lemma steps_disarmed (tr : list Step) :
  forall w : World,
    Disarmed w -> existsb (isEvent e ty) tr = false -> Disarmed (steps tr w).
Proof.
  induction tr as [|st tr IH]; intros w Hd Hne; cbn in *; [assumption|].
  apply orb_false_iff in Hne as [Hst Htr].
  apply IH; [|assumption].
  pose proof (step_disarmed st Hd) as Hstep. rewrite Hst in Hstep.
  exact Hstep.
Qed.

End Race.

(** *** A call in a well-formed world arms both triggers *)

Lemma forallb_in (A : Type) (p : A -> bool) (l : list A) (x : A) :
  forallb p l = true -> In x l -> p x = true.
Proof. intros Hall. apply (proj1 (forallb_forall p l) Hall). Qed.

Lemma queue_arms (w0 : World) (e : Element) (ty : string) (cb : CallbackId)
  (tmo : option number) :
  wellFormed w0 = true ->
  exists tm : Timer,
    isTimer (fst (timerOf (fst (queueBeforeEvent e ty cb tmo w0))))
            (snd (timerOf (fst (queueBeforeEvent e ty cb tmo w0)))) tm = true
    /\ handler tm = OnTimer (List.length (scopes w0))
    /\ Armed (List.length (scopes w0)) e ty cb tmo
         (fst (queueBeforeEvent e ty cb tmo w0)) tm
         (snd (queueBeforeEvent e ty cb tmo w0)).
Proof.
  intros Hwf. unfold wellFormed in Hwf.
  apply andb_true_iff in Hwf as [Hwf Hcalls].
  apply andb_true_iff in Hwf as [Hwf Hscopes].
  apply andb_true_iff in Hwf as [Htimers Hlisteners].
  destruct (queue_effect e ty cb tmo w0)
    as (t & Ht & Hh & Hc & Hfresh & Hnt & Hnf & Hid & Hs & Hl & Hcl & _).
  set (r := queueBeforeEvent e ty cb tmo w0) in *.
  set (s := List.length (scopes w0)) in *.
  assert (Hours : isTimer (fst (timerOf (fst r))) (snd (timerOf (fst r))) t
                  = true).
  { rewrite Hc. unfold isTimer. cbn [fst snd].
    rewrite api_eqb_refl, Nat.eqb_refl. reflexivity. }
  exists t. split; [exact Hours|]. split; [exact Hh|].
  assert (Hnone : existsb (sameListener e ty (CallSync s) true) (listeners w0)
                  = false).
  { destruct (existsb _ (listeners w0)) eqn:E; [|reflexivity].
    apply existsb_exists in E as (l & Hin & Hsame).
    pose proof (forallb_in _ _ l Hlisteners Hin) as Hbelow; cbn beta in Hbelow.
    unfold sameListener in Hsame.
    apply andb_true_iff in Hsame as [Hsame _].
    apply andb_true_iff in Hsame as [_ Hsame].
    apply closure_eqb_eq in Hsame. rewrite Hsame in Hbelow.
    cbn in Hbelow. apply Nat.ltb_lt in Hbelow. unfold s in Hbelow. lia. }
  rewrite Hnone in Hl.
  constructor.
  - constructor.
    + rewrite Hs, nth_error_app2 by (unfold s; lia).
      unfold s. rewrite Nat.sub_diag. reflexivity.
    + rewrite Hc. exact Hid.
    + intros s' sc. rewrite Hs. intros Hsc Hne.
      assert (Hlt : s' < s).
      { assert (s' < List.length (scopes w0 ++ [theScope e ty cb tmo (fst r)]))
          by (apply nth_error_Some; unfold theScope; congruence).
        rewrite length_app in H. cbn in H. unfold s in *. lia. }
      rewrite nth_error_app1 in Hsc by exact Hlt.
      apply nth_error_In in Hsc.
      pose proof (forallb_in _ _ sc Hscopes Hsc) as Hbelow; cbn beta in Hbelow.
      destruct (canceller_eqb (cancelTimer sc) (fst r)) eqn:E; [|reflexivity].
      apply canceller_eqb_eq in E. rewrite E, Hc in Hbelow. cbn [fst snd] in Hbelow.
      congruence.
  - unfold callsOf. rewrite Hcl. apply filter_none. intros call Hin.
    pose proof (forallb_in _ _ call Hcalls Hin) as Hbelow; cbn beta in Hbelow.
    apply Nat.ltb_lt in Hbelow. apply Nat.eqb_neq. unfold s. lia.
  - rewrite Ht, filter_app. cbn [filter].
    unfold ours at 2. rewrite Hours. cbn [orb].
    rewrite filter_none; [reflexivity|].
    intros t0 Hin. pose proof (forallb_in _ _ t0 Htimers Hin) as Hbelow; cbn beta in Hbelow.
    apply andb_true_iff in Hbelow as [Hbid Hbsc].
    unfold ours. apply orb_false_iff. split.
    + destruct (isTimer _ _ t0) eqn:E; [|reflexivity].
      unfold isTimer in E. apply andb_true_iff in E as [Ea Ei].
      apply api_eqb_eq in Ea. apply Nat.eqb_eq in Ei.
      rewrite Hc in Ea, Ei. cbn [fst snd] in Ea, Ei.
      rewrite Ea, Ei in Hbid. congruence.
    + destruct (handler t0) as [s'|s']; cbn in *;
        apply Nat.ltb_lt in Hbsc; apply Nat.eqb_neq; unfold s; lia.
  - rewrite Hl, filter_app. cbn [filter].
    unfold hearsOurs at 2. cbn [listener mentions]. rewrite Nat.eqb_refl.
    rewrite filter_none; [reflexivity|].
    intros l Hin. pose proof (forallb_in _ _ l Hlisteners Hin) as Hbelow; cbn beta in Hbelow.
    unfold hearsOurs.
    destruct (listener l) as [s'|s']; cbn in *;
      apply Nat.ltb_lt in Hbelow; apply Nat.eqb_neq; unfold s; lia.
Qed.

(** Reading the two states. *)
Lemma armed_reads (s : nat) (e : Element) (ty : string) (cb : CallbackId)
  (tmo : option number) (c : Canceller) (tm : Timer) (w : World) :
  isTimer (fst (timerOf c)) (snd (timerOf c)) tm = true ->
  Armed s e ty cb tmo c tm w ->
  callsOf s w = [] /\ pending c w = true /\ listening s w = true.
Proof.
  intros Hours [Hb Hc Ht Hl]. split; [exact Hc|]. split.
  - unfold pending. apply existsb_exists. exists tm. split; [|exact Hours].
    apply (@filter_single_has _ _ _ _ Ht).
  - unfold listening. apply existsb_exists. exists (theListener s e ty).
    split; [apply (@filter_single_has _ _ _ _ Hl)|].
    apply closure_eqb_refl.
Qed.

Lemma done_reads (s : nat) (e : Element) (ty : string) (cb : CallbackId)
  (tmo : option number) (c : Canceller) (w : World) :
  Done s e ty cb tmo c w ->
  callsOf s w = [(s, cb)] /\ pending c w = false /\ listening s w = false.
Proof.
  intros [Hb Hc Ht Hl]. split; [exact Hc|]. split.
  - unfold pending. destruct (existsb _ (timers w)) eqn:E; [|reflexivity].
    apply existsb_exists in E as (t & Hin & Hit).
    pose proof (@filter_nil_in _ _ _ _ Ht Hin) as Ho.
    unfold ours in Ho. rewrite Hit in Ho. discriminate.
  - unfold listening. destruct (existsb _ (listeners w)) eqn:E; [|reflexivity].
    apply existsb_exists in E as (l & Hin & Hcl).
    pose proof (@filter_nil_in _ _ _ _ Hl Hin) as Ho.
    apply closure_eqb_eq in Hcl. unfold hearsOurs in Ho. rewrite Hcl in Ho.
    cbn in Ho. rewrite Nat.eqb_refl in Ho. discriminate.
Qed.

(** C2.  A call of [queueBeforeEvent] is made in a well-formed host, and
    then anything happens in any order - timers run, events are delivered,
    further calls are made, other handles are invoked - except that the
    handle of this call is not invoked.  As long as neither trigger of the
    call has fired (its timer has not run and no event of its type has
    passed its element), the callback has not been called and both triggers
    are in place.  Once a trigger has fired, the functions of the call have
    called the callback exactly once, the timer is no longer active and the
    listener is no longer registered - so the trigger that fires first
    disarms the other, and nothing that happens later calls the callback
    again. *)
Theorem callback_runs_exactly_once (w0 : World) (e : Element) (ty : string)
  (cb : CallbackId) (tmo : option number) (tr : list Step) :
  let s := List.length (scopes w0) in
  let c := fst (queueBeforeEvent e ty cb tmo w0) in
  let w2 := steps tr (snd (queueBeforeEvent e ty cb tmo w0)) in
  wellFormed w0 = true ->
  existsb (isCancel c) tr = false ->
  if existsb (isTrigger c e ty) tr
  then callsOf s w2 = [(s, cb)] /\ runsOf s w2 = 1
       /\ pending c w2 = false /\ listening s w2 = false
  else callsOf s w2 = [] /\ runsOf s w2 = 0
       /\ pending c w2 = true /\ listening s w2 = true.
Proof.
  intros s c w2 Hwf Hnc.
  destruct (@queue_arms w0 e ty cb tmo Hwf) as (tm & Hours & Hh & Ha).
  fold c in Hours, Ha. fold s in Hh, Ha.
  assert (Hsteps : if existsb (isTrigger c e ty) tr
                   then Done s e ty cb tmo c w2
                   else Armed s e ty cb tmo c tm w2)
    by (eapply steps_armed; eassumption).
  destruct (existsb (isTrigger c e ty) tr).
  - destruct (done_reads Hsteps) as (Hc & Hp & Hl).
    unfold runsOf. rewrite Hc. auto.
  - destruct (armed_reads Hours Hsteps) as (Hc & Hp & Hl).
    unfold runsOf. rewrite Hc. auto.
Qed.

Lemma callback_runs_exactly_once_witness :
  wellFormed emptyWorld = true
  /\ existsb (isCancel (ClearTimeout 1))
       [EventFires 7 "keydown"; TimerFires Timeout 1; EventFires 7 "keydown"]
     = false
  /\ (let w2 :=
        steps [EventFires 7 "keydown"; TimerFires Timeout 1;
               EventFires 7 "keydown"]
          (snd (queueBeforeEvent 7 "keydown" 42 (Some (Finite 100))
                  emptyWorld)) in
      callsOf 0 w2 = [(0, 42)] /\ runsOf 0 w2 = 1
      /\ pending (ClearTimeout 1) w2 = false /\ listening 0 w2 = false).
Proof.
  split; [reflexivity|]. split; [reflexivity|].
  exact (callback_runs_exactly_once emptyWorld 7 "keydown" 42
           (Some (Finite 100))
           [EventFires 7 "keydown"; TimerFires Timeout 1;
            EventFires 7 "keydown"] eq_refl eq_refl).
Defined.

(** The cases of the description: with a 100 ms timeout, an event at 10 ms
    runs the callback once and the timer never fires; without an event the
    timer runs it once, and a later event does not. *)
Example keydown_before_timeout :
  let w1 := snd (queueBeforeEvent 7 "keydown" 42 (Some (Finite 100)) emptyWorld) in
  calls (steps [EventFires 7 "keydown"; TimerFires Timeout 1] w1) = [(0, 42)]
  /\ calls (steps [TimerFires Timeout 1; EventFires 7 "keydown"] w1) = [(0, 42)]
  /\ calls (steps [EventFires 8 "keydown"; EventFires 7 "keyup"] w1) = [].
Proof. repeat split; reflexivity. Qed.

(** *** Which timer *)

Lemma falsy_number (ms : number) :
  numberToBoolean ms = false
  <-> ms = NaN \/ exists q : Q, ms = Finite q /\ Qeq q 0.
Proof.
  destruct ms as [|neg|q]; cbn.
  - split; auto.
  - split; [discriminate|]. intros [H | (q & H & _)]; discriminate.
  - rewrite negb_false_iff, Z.eqb_eq. unfold Qeq. cbn. split.
    + intros Hq. right. exists q. split; [reflexivity | lia].
    + intros [H | (q' & H & Hq)]; [discriminate|].
      injection H as <-. lia.
Qed.

(** C3, as stated, fails: a timeout of [0] is given, and the timer trigger
    is an animation frame request, not a [setTimeout] timer. *)
Lemma zero_timeout_requests_animation_frame :
  ~ usesDelayTimer (Finite 0) emptyWorld
      (queueBeforeEvent 7 "keydown" 42 (Some (Finite 0)) emptyWorld)
  /\ usesAnimationFrame emptyWorld
       (queueBeforeEvent 7 "keydown" 42 (Some (Finite 0)) emptyWorld).
Proof.
  split.
  - intros (id & Hc & _). discriminate Hc.
  - exists 1. split; reflexivity.
Qed.

(** C3, amended.  The timer trigger follows the truthiness of [timeout]:
    when a timeout is given and is truthy - a number other than [0], [-0]
    and [NaN] - it is a [setTimeout] timer with that delay; when the
    timeout is omitted, or is [0] or [NaN], it is an animation frame
    request.  Either way the handler of the timer is the function that
    removes the listener and calls the callback, and the handle returned
    cancels that timer. *)
Theorem timer_follows_truthiness (e : Element) (ty : string)
  (cb : CallbackId) (tmo : option number) (w : World) :
  match tmo with
  | Some ms =>
      if numberToBoolean ms
      then usesDelayTimer ms w (queueBeforeEvent e ty cb tmo w)
      else usesAnimationFrame w (queueBeforeEvent e ty cb tmo w)
           /\ (ms = NaN \/ exists q : Q, ms = Finite q /\ Qeq q 0)
  | None => usesAnimationFrame w (queueBeforeEvent e ty cb tmo w)
  end.
Proof.
  destruct (queue_effect e ty cb tmo w)
    as (t & Ht & Hh & Hc & _ & _ & _ & _ & _ & _ & _ & Hkind).
  unfold usesDelayTimer, usesAnimationFrame. rewrite Ht.
  destruct t as [a i d h]. cbn [api timerId delay handler] in *. subst h.
  destruct tmo as [ms|]; [destruct (numberToBoolean ms) eqn:Hms|];
    injection Hkind as -> ->.
  - exists i. split; [|reflexivity].
    destruct (fst (queueBeforeEvent e ty cb (Some ms) w)); cbn in Hc; congruence.
  - split; [|apply falsy_number, Hms].
    exists i. split; [|reflexivity].
    destruct (fst (queueBeforeEvent e ty cb (Some ms) w)); cbn in Hc; congruence.
  - exists i. split; [|reflexivity].
    destruct (fst (queueBeforeEvent e ty cb None w)); cbn in Hc; congruence.
Qed.

(** *** Invoking the handle again *)

(** No function of any call creates a timer, a listener or a scope, or
    moves the identifier counters: running one leaves a part of the timers
    and listeners there were, and records invocations by scopes that
    exist. *)
Record Shrinks (w w' : World) : Prop := {
  shrinks_timers : exists q : Timer -> bool, timers w' = filter q (timers w);
  shrinks_listeners :
    exists r : Listener -> bool, listeners w' = filter r (listeners w);
  shrinks_scopes : scopes w' = scopes w;
  shrinks_timeout : nextTimeoutId w' = nextTimeoutId w;
  shrinks_frame : nextFrameId w' = nextFrameId w;
  shrinks_calls :
    forall call : nat * CallbackId,
      In call (calls w') ->
      In call (calls w) \/ fst call < List.length (scopes w)
}.

Lemma filter_true (A : Type) (l : list A) : l = filter (fun _ => true) l.
Proof. symmetry. apply filter_all. reflexivity. Qed.

Lemma shrinks_refl (w : World) : Shrinks w w.
Proof.
  constructor; try reflexivity; eauto using filter_true.
Qed.

Lemma shrinks_trans (w1 w2 w3 : World) :
  Shrinks w1 w2 -> Shrinks w2 w3 -> Shrinks w1 w3.
Proof.
  intros [(q1 & H1) (r1 & L1) Hs1 Ht1 Hf1 Hc1]
         [(q2 & H2) (r2 & L2) Hs2 Ht2 Hf2 Hc2].
  constructor; try congruence.
  - exists (fun t => q1 t && q2 t). rewrite H2, H1. apply filter_filter.
  - exists (fun l => r1 l && r2 l). rewrite L2, L1. apply filter_filter.
  - intros call Hin. apply Hc2 in Hin as [Hin | Hlt].
    + apply Hc1, Hin.
    + right. rewrite <- Hs1. exact Hlt.
Qed.

Lemma clearTimer_shrinks (a : TimerApi) (i : nat) (w : World) :
  Shrinks w (clearTimer a i w).
Proof.
  constructor; try reflexivity; eauto using filter_true.
  exists (fun t => negb (isTimer a i t)). reflexivity.
Qed.

Lemma removeEventListener_shrinks (e : Element) (ty : string) (f : Closure)
  (cap : bool) (w : World) :
  Shrinks w (removeEventListener e ty f cap w).
Proof.
  constructor; try reflexivity; eauto using filter_true.
  exists (fun l => negb (sameListener e ty f cap l)). reflexivity.
Qed.

Lemma dropListener_shrinks (l : Listener) (w : World) :
  Shrinks w (dropListener l w).
Proof.
  constructor; try reflexivity; eauto using filter_true.
  exists (fun m => negb (listener_eqb m l)). reflexivity.
Qed.

Lemma invoke_shrinks (s : nat) (cb : CallbackId) (w : World) :
  s < List.length (scopes w) -> Shrinks w (invoke s cb w).
Proof.
  intros Hs. constructor; try reflexivity; eauto using filter_true.
  cbn [invoke calls]. intros call Hin.
  apply in_app_or in Hin as [Hin | [<- | []]]; auto.
Qed.

Lemma run_shrinks (f : Closure) (w : World) : Shrinks w (run f w).
Proof.
  destruct f as [s|s]; cbn [run];
    destruct (nth_error (scopes w) s) as [sc|] eqn:Hsc;
    try apply shrinks_refl;
    assert (Hlt : s < List.length (scopes w))
      by (apply nth_error_Some; congruence).
  - eapply shrinks_trans; [apply removeEventListener_shrinks|].
    apply invoke_shrinks. exact Hlt.
  - rewrite runCanceller_clear.
    eapply shrinks_trans; [apply clearTimer_shrinks|].
    apply invoke_shrinks. exact Hlt.
Qed.

Lemma invokeListeners_shrinks (found : list Listener) :
  forall w : World, Shrinks w (invokeListeners found w).
Proof.
  induction found as [|l found IH]; intros w; cbn [invokeListeners].
  - apply shrinks_refl.
  - destruct (registered l w); [|apply IH].
    eapply shrinks_trans; [|apply IH].
    eapply shrinks_trans; [|apply run_shrinks].
    destruct (once l); [apply dropListener_shrinks | apply shrinks_refl].
Qed.

Lemma timerFires_shrinks (a : TimerApi) (i : nat) (w : World) :
  Shrinks w (timerFires a i w).
Proof.
  unfold timerFires. destruct (find _ (timers w)) as [t|].
  - eapply shrinks_trans; [apply clearTimer_shrinks | apply run_shrinks].
  - apply shrinks_refl.
Qed.

(** The timer of handle [c] has been created and is not active. *)
Definition Spent (c : Canceller) (w : World) : Prop :=
  pending c w = false
  /\ idBelow w (fst (timerOf c)) (snd (timerOf c)) = true.

Lemma shrinks_spent (c : Canceller) (w w' : World) :
  Spent c w -> Shrinks w w' -> Spent c w'.
Proof.
  intros [Hp Hid] [(q & Hq) _ _ Ht Hf _]. split.
  - unfold pending in *. rewrite Hq, existsb_filter.
    destruct (existsb (fun x => q x && _) (timers w)) eqn:E; [|reflexivity].
    apply existsb_exists in E as (t & Hin & Hqt).
    apply andb_true_iff in Hqt as [_ Hit].
    assert (existsb (isTimer (fst (timerOf c)) (snd (timerOf c))) (timers w)
            = true) by (apply existsb_exists; eauto).
    congruence.
  - revert Hid. unfold idBelow. rewrite Ht, Hf. auto.
Qed.

Lemma queue_spent (c : Canceller) (e : Element) (ty : string)
  (cb : CallbackId) (tmo : option number) (w : World) :
  Spent c w -> Spent c (snd (queueBeforeEvent e ty cb tmo w)).
Proof.
  intros [Hp Hid].
  destruct (queue_effect e ty cb tmo w)
    as (t & Ht & _ & _ & Hfresh & Hnt & Hnf & _).
  split.
  - unfold pending in *. rewrite Ht, existsb_app, Hp. cbn.
    rewrite orb_false_r.
    destruct (isTimer _ _ t) eqn:E; [|reflexivity].
    unfold isTimer in E. apply andb_true_iff in E as [Ea Ei].
    apply api_eqb_eq in Ea. apply Nat.eqb_eq in Ei.
    rewrite Ea, Ei in Hfresh. congruence.
  - eapply idBelow_mono; eassumption.
Qed.

Lemma step_shrinks_or_queues (st : Step) (w : World) :
  Shrinks w (step st w)
  \/ exists e ty cb tmo, step st w = snd (queueBeforeEvent e ty cb tmo w).
Proof.
  destruct st as [a i | e ty | e ty cb tmo | d]; cbn [step].
  - left. apply timerFires_shrinks.
  - left. apply invokeListeners_shrinks.
  - right. eauto.
  - left. rewrite runCanceller_clear. apply clearTimer_shrinks.
Qed.

Lemma steps_spent (c : Canceller) (tr : list Step) :
  forall w : World, Spent c w -> Spent c (steps tr w).
Proof.
  induction tr as [|st tr IH]; intros w Hs; cbn; [assumption|].
  apply IH.
  destruct (step_shrinks_or_queues st w) as [Hsh | (e & ty & cb & tmo & ->)].
  - apply (shrinks_spent Hs Hsh).
  - apply queue_spent, Hs.
Qed.

Lemma steps_idBelow (a : TimerApi) (i : nat) (tr : list Step) :
  forall w : World, idBelow w a i = true -> idBelow (steps tr w) a i = true.
Proof.
  induction tr as [|st tr IH]; intros w Hid; cbn; [assumption|].
  apply IH.
  destruct (step_shrinks_or_queues st w)
    as [[_ _ _ Ht Hf _] | (e & ty & cb & tmo & ->)].
  - revert Hid. unfold idBelow. rewrite Ht, Hf. auto.
  - destruct (queue_effect e ty cb tmo w)
      as (t & _ & _ & _ & _ & Hnt & Hnf & _).
    eapply idBelow_mono; eassumption.
Qed.

Lemma runCanceller_spends (c : Canceller) (w : World) :
  idBelow w (fst (timerOf c)) (snd (timerOf c)) = true ->
  Spent c (runCanceller c w).
Proof.
  intros Hid. rewrite runCanceller_clear. split; [|exact Hid].
  unfold pending, clearTimer. cbn [timers setTimers]. rewrite existsb_filter.
  induction (timers w) as [|t l IH]; cbn; [reflexivity|].
  rewrite IH. destruct (isTimer _ _ t); reflexivity.
Qed.

Lemma spent_noop (c : Canceller) (w : World) :
  pending c w = false -> runCanceller c w = w.
Proof.
  intros Hp. rewrite runCanceller_clear. unfold clearTimer.
  rewrite filter_all; [apply setTimers_same|].
  intros t Hin. unfold pending in Hp.
  destruct (isTimer _ _ t) eqn:E; [|reflexivity].
  assert (existsb (isTimer (fst (timerOf c)) (snd (timerOf c))) (timers w)
          = true) by (apply existsb_exists; eauto).
  congruence.
Qed.

(** C10.  The handle a call returns - the [clearTimeout] one of a call
    with a truthy timeout as much as the [cancelAnimationFrame] one of the
    others - can be invoked again: after a first invocation, made at any
    time after the call, a second invocation changes nothing in the host,
    whether it follows at once or after anything else has happened. *)
Theorem cancel_again_changes_nothing (w0 : World) (e : Element)
  (ty : string) (cb : CallbackId) (tmo : option number)
  (before between : list Step) :
  let c := fst (queueBeforeEvent e ty cb tmo w0) in
  let w := runCanceller c
             (steps before (snd (queueBeforeEvent e ty cb tmo w0))) in
  runCanceller c w = w
  /\ runCanceller c (steps between w) = steps between w.
Proof.
  intros c w.
  assert (Hs : Spent c w).
  { apply runCanceller_spends, steps_idBelow.
    destruct (queue_effect e ty cb tmo w0)
      as (t & _ & _ & Hc & _ & _ & _ & Hid & _).
    unfold c. rewrite Hc. exact Hid. }
  split.
  - apply spent_noop, Hs.
  - apply spent_noop. apply (steps_spent between Hs).
Qed.

Example cancel_twice_both_timers :
  let r := queueBeforeEvent 7 "keydown" 42 (Some (Finite 100)) emptyWorld in
  let r' := queueBeforeEvent 7 "keydown" 42 None emptyWorld in
  fst r = ClearTimeout 1
  /\ runCanceller (fst r) (runCanceller (fst r) (snd r))
     = runCanceller (fst r) (snd r)
  /\ fst r' = CancelAnimationFrame 1
  /\ runCanceller (fst r') (runCanceller (fst r') (snd r'))
     = runCanceller (fst r') (snd r').
Proof. repeat split; reflexivity. Qed.

(** *** Invoking the handle before a trigger fires *)

Lemma disarmed_reads (s : nat) (e : Element) (ty : string)
  (cb : CallbackId) (tmo : option number) (c : Canceller) (w : World) :
  Disarmed s e ty cb tmo c w ->
  callsOf s w = [] /\ pending c w = false /\ listening s w = true.
Proof.
  intros [Hb Hc Ht Hl]. split; [exact Hc|]. split.
  - unfold pending.
    destruct (existsb _ (timers w)) eqn:E; [|reflexivity].
    apply existsb_exists in E as (t & Hin & Hit).
    pose proof (@filter_nil_in _ _ _ _ Ht Hin) as Ho.
    unfold ours in Ho. rewrite Hit in Ho. discriminate.
  - unfold listening. apply existsb_exists. exists (theListener s e ty).
    split; [apply (@filter_single_has _ _ _ _ Hl)|].
    apply closure_eqb_refl.
Qed.

(** C1.  What the code does with the handle.  A call of
    [queueBeforeEvent] is made in a well-formed host, and its handle is
    invoked before either trigger has fired.  The handle has cleared the
    timer, and that is all: whatever happens next short of an event of the
    type on the element, the callback has not been called, the timer is
    gone, and the capture listener of the call is still registered - and
    the next event of the type on the element calls the callback. *)
Theorem cancel_leaves_the_listener (w0 : World) (e : Element) (ty : string)
  (cb : CallbackId) (tmo : option number) (before after : list Step) :
  let s := List.length (scopes w0) in
  let c := fst (queueBeforeEvent e ty cb tmo w0) in
  let w2 :=
    steps after
      (runCanceller c
         (steps before (snd (queueBeforeEvent e ty cb tmo w0)))) in
  wellFormed w0 = true ->
  existsb (isTrigger c e ty) before = false ->
  existsb (isCancel c) before = false ->
  existsb (isEvent e ty) after = false ->
  callsOf s w2 = [] /\ pending c w2 = false /\ listening s w2 = true
  /\ callsOf s (eventFires e ty w2) = [(s, cb)].
Proof.
  intros s c w2 Hwf Hnt Hnc Hne.
  destruct (@queue_arms w0 e ty cb tmo Hwf) as (tm & Hours & Hh & Ha).
  fold c in Hours, Ha. fold s in Hh, Ha.
  assert (Hbefore : if existsb (isTrigger c e ty) before
                    then Done s e ty cb tmo c
                           (steps before (snd (queueBeforeEvent e ty cb tmo w0)))
                    else Armed s e ty cb tmo c tm
                           (steps before (snd (queueBeforeEvent e ty cb tmo w0))))
    by (eapply steps_armed; eassumption).
  rewrite Hnt in Hbefore.
  assert (Hd : Disarmed s e ty cb tmo c w2).
  { unfold w2. eapply steps_disarmed; [| |exact Hne]; try eassumption.
    eapply cancel_disarms; eassumption. }
  destruct (disarmed_reads Hd) as (Hc & Hp & Hl).
  repeat split; try assumption.
  assert (Hfire : if (e =? e)%nat && (ty =? ty)
                  then Done s e ty cb tmo c (eventFires e ty w2)
                  else Disarmed s e ty cb tmo c (eventFires e ty w2))
    by (eapply eventFires_disarmed; eassumption).
  rewrite Nat.eqb_refl, String.eqb_refl in Hfire. cbn [andb] in Hfire.
  apply (done_reads Hfire).
Qed.

Lemma cancel_leaves_the_listener_witness :
  wellFormed emptyWorld = true
  /\ existsb (isTrigger (ClearTimeout 1) 7 "keydown") [EventFires 8 "keydown"]
     = false
  /\ existsb (isCancel (ClearTimeout 1)) [EventFires 8 "keydown"] = false
  /\ existsb (isEvent 7 "keydown") [TimerFires Timeout 1] = false
  /\ (let w2 :=
        steps [TimerFires Timeout 1]
          (runCanceller (ClearTimeout 1)
             (steps [EventFires 8 "keydown"]
                (snd (queueBeforeEvent 7 "keydown" 42 (Some (Finite 100))
                        emptyWorld)))) in
      callsOf 0 w2 = [] /\ pending (ClearTimeout 1) w2 = false
      /\ listening 0 w2 = true
      /\ callsOf 0 (eventFires 7 "keydown" w2) = [(0, 42)]).
Proof.
  do 4 (split; [reflexivity|]).
  exact (cancel_leaves_the_listener emptyWorld 7 "keydown" 42
           (Some (Finite 100)) [EventFires 8 "keydown"]
           [TimerFires Timeout 1] eq_refl eq_refl eq_refl eq_refl).
Defined.

Example cancel_then_keydown :
  let r := queueBeforeEvent 7 "keydown" 42 (Some (Finite 100)) emptyWorld in
  calls (steps [Cancels (fst r); EventFires 7 "keydown"] (snd r)) = [(0, 42)].
Proof. reflexivity. Qed.

(** *** Every world a page can reach is well formed *)

Lemma wellFormed_iff (w : World) :
  wellFormed w = true <->
  (forall t, In t (timers w) ->
     idBelow w (api t) (timerId t) = true /\ scopeBelow w (handler t) = true)
  /\ (forall l, In l (listeners w) -> scopeBelow w (listener l) = true)
  /\ (forall sc, In sc (scopes w) ->
        idBelow w (fst (timerOf (cancelTimer sc)))
                  (snd (timerOf (cancelTimer sc))) = true)
  /\ (forall call, In call (calls w) -> fst call < List.length (scopes w)).
Proof.
  unfold wellFormed. rewrite !andb_true_iff, !forallb_forall.
  split.
  - intros [[[Ht Hl] Hs] Hc]. repeat split; auto.
    + apply (proj1 (andb_true_iff _ _) (Ht t H)).
    + apply (proj1 (andb_true_iff _ _) (Ht t H)).
    + intros call Hin. apply Nat.ltb_lt, Hc, Hin.
  - intros (Ht & Hl & Hs & Hc). repeat split; auto.
    + intros t Hin. apply andb_true_iff, Ht, Hin.
    + intros call Hin. apply Nat.ltb_lt, Hc, Hin.
Qed.

Lemma scopeBelow_mono (w w' : World) (f : Closure) :
  List.length (scopes w) <= List.length (scopes w') ->
  scopeBelow w f = true -> scopeBelow w' f = true.
Proof.
  intros Hle. destruct f; cbn [scopeBelow]; rewrite !Nat.ltb_lt; lia.
Qed.

Lemma shrinks_wellFormed (w w' : World) :
  wellFormed w = true -> Shrinks w w' -> wellFormed w' = true.
Proof.
  rewrite !wellFormed_iff.
  intros (Ht & Hl & Hs & Hc) [(q & Hq) (r & Hr) Hsc Hnt Hnf Hcalls].
  assert (Hid : forall a i, idBelow w a i = true -> idBelow w' a i = true).
  { intros a i. apply idBelow_mono; lia. }
  assert (Hsb : forall f, scopeBelow w f = true -> scopeBelow w' f = true).
  { intros f. apply scopeBelow_mono. rewrite Hsc. lia. }
  repeat split.
  - apply Hid, Ht. rewrite Hq in H. apply filter_In in H. tauto.
  - apply Hsb, Ht. rewrite Hq in H. apply filter_In in H. tauto.
  - intros l Hin. apply Hsb, Hl. rewrite Hr in Hin.
    apply filter_In in Hin. tauto.
  - intros sc Hin. apply Hid, Hs. rewrite <- Hsc. exact Hin.
  - intros call Hin. rewrite Hsc.
    destruct (Hcalls call Hin) as [Hold | Hlt]; auto.
Qed.

Lemma queue_wellFormed (e : Element) (ty : string) (cb : CallbackId)
  (tmo : option number) (w : World) :
  wellFormed w = true ->
  wellFormed (snd (queueBeforeEvent e ty cb tmo w)) = true.
Proof.
  rewrite !wellFormed_iff. intros (Ht & Hl & Hs & Hc).
  destruct (queue_effect e ty cb tmo w)
    as (t & Htimers & Hh & Hcan & _ & Hnt & Hnf & Hid & Hscopes & Hlisteners
        & Hcalls & _).
  set (w' := snd (queueBeforeEvent e ty cb tmo w)) in *.
  assert (Hlen : List.length (scopes w') = S (List.length (scopes w))).
  { rewrite Hscopes, length_app. cbn. lia. }
  assert (Hmono : forall a i, idBelow w a i = true -> idBelow w' a i = true).
  { intros a i. apply idBelow_mono; assumption. }
  assert (Hsb : forall f, scopeBelow w f = true -> scopeBelow w' f = true).
  { intros f. apply scopeBelow_mono. lia. }
  assert (Hnew : forall f, mentions (List.length (scopes w)) f = true ->
                           scopeBelow w' f = true).
  { intros f Hf. destruct f; cbn [mentions scopeBelow] in *;
      apply Nat.eqb_eq in Hf; apply Nat.ltb_lt; lia. }
  repeat split.
  - rewrite Htimers in H. apply in_app_or in H as [Hin | [<- | []]].
    + apply Hmono, Ht, Hin.
    + exact Hid.
  - rewrite Htimers in H. apply in_app_or in H as [Hin | [<- | []]].
    + apply Hsb, Ht, Hin.
    + apply Hnew. rewrite Hh. cbn. apply Nat.eqb_refl.
  - intros l Hin. rewrite Hlisteners in Hin.
    apply in_app_or in Hin as [Hin | Hin]; [apply Hsb, Hl, Hin|].
    destruct (existsb _ (listeners w)); [contradiction|].
    destruct Hin as [<- | []]. apply Hnew. cbn. apply Nat.eqb_refl.
  - intros sc Hin. rewrite Hscopes in Hin.
    apply in_app_or in Hin as [Hin | [<- | []]].
    + apply Hmono, Hs, Hin.
    + cbn [cancelTimer]. rewrite Hcan. exact Hid.
  - intros call Hin. rewrite Hcalls in Hin. apply Hc in Hin. lia.
Qed.

Lemma steps_wellFormed (tr : list Step) :
  forall w : World, wellFormed w = true -> wellFormed (steps tr w) = true.
Proof.
  induction tr as [|st tr IH]; intros w Hwf; cbn; [assumption|].
  apply IH.
  destruct (step_shrinks_or_queues st w) as [Hsh | (e & ty & cb & tmo & ->)].
  - apply (shrinks_wellFormed Hwf Hsh).
  - apply queue_wellFormed, Hwf.
Qed.

(** X1.  Whatever has happened on a page since it was fresh, its world is
    well formed: the hypothesis of the race theorem holds at every call a page
    can make. *)
Corollary reachable_wellFormed (tr : list Step) :
  wellFormed (steps tr emptyWorld) = true.
Proof. apply steps_wellFormed. reflexivity. Qed.

End QueueFacts.

(** ** [isPortalEvent], [isSelfTarget], [isFocusEventOutside] *)

Module TargetsFacts.

Import Js Targets.
Local Open Scope list_scope.

Lemma node_eqb_eq (a b : Node) : node_eqb a b = true <-> a = b.
Proof.
  unfold node_eqb. destruct (list_eq_dec Nat.eq_dec a b); split;
    congruence.
Qed.

Lemma strictEquals_eq (a b : option Node) :
  strictEquals a b = true <-> a = b.
Proof.
  destruct a as [x|], b as [y|]; cbn; rewrite ?node_eqb_eq;
    split; congruence.
Qed.

Lemma isPrefix_refl (a : Node) : isPrefix a a = true.
Proof.
  induction a as [|x a IH]; cbn; [reflexivity|].
  rewrite Nat.eqb_refl. exact IH.
Qed.

Lemma isPrefix_trans (a : Node) :
  forall b c : Node,
    isPrefix a b = true -> isPrefix b c = true -> isPrefix a c = true.
Proof.
  induction a as [|x a IH]; intros b c Hab Hbc; [reflexivity|].
  destruct b as [|y b]; [discriminate|].
  destruct c as [|z c]; [discriminate|].
  cbn in *. apply andb_true_iff in Hab as [Hxy Hab].
  apply andb_true_iff in Hbc as [Hyz Hbc].
  apply Nat.eqb_eq in Hxy. apply Nat.eqb_eq in Hyz. subst.
  rewrite Nat.eqb_refl. cbn. eapply IH; eassumption.
Qed.

Section Contains.

Variable contains : option Node -> option Node -> Completion bool.

(** The container [isFocusEventOutside] checks against. *)
Definition containerOf (event : Event) (container : option Node)
  : option Node :=
  match container with
  | Some c => Some c
  | None => currentTarget event
  end.

(** X3.  The two predicates throw exactly when they call [contains] and it
    throws, with the same error.  [isPortalEvent] does not call it for a
    [null] [currentTarget] (the result is [false]), [isFocusEventOutside]
    does not call it for a [null] [relatedTarget] (the result is [true]):
    there they return normally even if [contains] would refuse every
    call. *)
Theorem predicates_throw_only_through_contains (event : Event)
  (container : option Node) (err : Error) :
  (isPortalEvent contains event = Throw err <->
   currentTarget event <> None
   /\ contains (currentTarget event) (target event) = Throw err)
  /\ (isFocusEventOutside contains event container = Throw err <->
      relatedTarget event <> None
      /\ contains (containerOf event container) (relatedTarget event)
         = Throw err)
  /\ (currentTarget event = None ->
      isPortalEvent contains event = Normal false)
  /\ (relatedTarget event = None ->
      isFocusEventOutside contains event container = Normal true).
Proof.
  unfold isPortalEvent, isFocusEventOutside.
  split; [|split; [|split]].
  - destruct (currentTarget event) as [ct|].
    + destruct (contains (Some ct) (target event)) as [b|e0]; cbn; unfold ret;
        intuition congruence.
    + cbn. unfold ret. intuition congruence.
  - destruct (relatedTarget event) as [rt|].
    + destruct (contains (containerOf event container) (Some rt))
        as [b|e0] eqn:Hc; unfold containerOf in Hc; rewrite Hc; cbn; unfold ret;
        intuition congruence.
    + cbn. unfold ret. intuition congruence.
  - intros ->. reflexivity.
  - intros ->. reflexivity.
Qed.

(** What the callers rely on: on two nodes [contains] answers, and a node
    contains itself. *)
Variable inside : Node -> Node -> bool.

Hypothesis contains_nodes :
  forall a b : Node, contains (Some a) (Some b) = Normal (inside a b).
Hypothesis inside_refl : forall a : Node, inside a a = true.
Hypothesis inside_trans :
  forall a b c : Node,
    inside a b = true -> inside b c = true -> inside a c = true.

(** X4.  An event whose target is its current target is never a portal
    event: when [isSelfTarget] holds, [isPortalEvent] returns [false]. *)
Theorem self_target_is_not_portal (event : Event) :
  isSelfTarget event = true -> isPortalEvent contains event = Normal false.
Proof.
  unfold isSelfTarget, isPortalEvent. rewrite strictEquals_eq. intros Hsame.
  destruct (currentTarget event) as [ct|]; [|reflexivity].
  rewrite Hsame, contains_nodes, inside_refl. reflexivity.
Qed.

(** X5.  Focus that leaves an outer container has left every container
    inside it: if [outer] contains [inner] and [isFocusEventOutside] holds
    for [outer], it holds for [inner]. *)
Theorem focus_outside_outer_is_outside_inner (event : Event)
  (outer inner : Node) :
  inside outer inner = true ->
  isFocusEventOutside contains event (Some outer) = Normal true ->
  isFocusEventOutside contains event (Some inner) = Normal true.
Proof.
  unfold isFocusEventOutside. intros Hnest.
  destruct (relatedTarget event) as [rt|]; [|reflexivity].
  rewrite !contains_nodes. cbn.
  destruct (inside inner rt) eqn:Hin; [|reflexivity].
  rewrite (inside_trans Hnest Hin). discriminate.
Qed.

(** X6.  Focus that moves to the container itself has not left it: with
    the container as [relatedTarget], [isFocusEventOutside] returns
    [false], for a container passed explicitly and for the current target
    used in its place.  A container passed explicitly is the one checked,
    whatever the current target is; [null] falls back on the current
    target. *)
Theorem focus_to_the_container_is_inside (event : Event) (c : Node) :
  relatedTarget event = Some c ->
  isFocusEventOutside contains event (Some c) = Normal false
  /\ (currentTarget event = Some c ->
      isFocusEventOutside contains event None = Normal false)
  /\ (forall other : Event,
        relatedTarget other = relatedTarget event ->
        forall container : Node,
          isFocusEventOutside contains other (Some container)
          = isFocusEventOutside contains event (Some container))
  /\ isFocusEventOutside contains event None
     = isFocusEventOutside contains event (currentTarget event).
Proof.
  unfold isFocusEventOutside. intros Hrt. rewrite Hrt.
  repeat split.
  - rewrite contains_nodes, inside_refl. reflexivity.
  - intros ->. rewrite contains_nodes, inside_refl. reflexivity.
  - intros other Hother container. rewrite Hother. reflexivity.
  - destruct (currentTarget event); reflexivity.
Qed.

End Contains.

Lemma treeContains_nodes (a b : Node) :
  treeContains (Some a) (Some b) = Normal (isPrefix a b).
Proof. reflexivity. Qed.

(** A button at [0; 1] inside a dialog at [0]; a link at [2] beside the
    dialog. *)
Definition dialog : Node := [0].
Definition button : Node := [0; 1].
Definition link : Node := [2].

Definition clickOnButton : Event :=
  {| target := Some button; currentTarget := Some button;
     relatedTarget := None |}.

Definition blurToLink : Event :=
  {| target := Some button; currentTarget := Some dialog;
     relatedTarget := Some link |}.

Definition blurToDialog : Event :=
  {| target := Some button; currentTarget := Some dialog;
     relatedTarget := Some dialog |}.

Lemma self_target_is_not_portal_witness :
  (forall a b : Node, treeContains (Some a) (Some b) = Normal (isPrefix a b))
  /\ (forall a : Node, isPrefix a a = true)
  /\ isSelfTarget clickOnButton = true
  /\ isPortalEvent treeContains clickOnButton = Normal false.
Proof.
  split; [exact treeContains_nodes|]. split; [exact isPrefix_refl|].
  split; [reflexivity|].
  exact (self_target_is_not_portal treeContains isPrefix treeContains_nodes
           isPrefix_refl clickOnButton eq_refl).
Defined.

Lemma focus_outside_outer_is_outside_inner_witness :
  (forall a b : Node, treeContains (Some a) (Some b) = Normal (isPrefix a b))
  /\ (forall a b c : Node,
        isPrefix a b = true -> isPrefix b c = true -> isPrefix a c = true)
  /\ isPrefix dialog button = true
  /\ isFocusEventOutside treeContains blurToLink (Some dialog) = Normal true
  /\ isFocusEventOutside treeContains blurToLink (Some button) = Normal true.
Proof.
  split; [exact treeContains_nodes|]. split; [exact isPrefix_trans|].
  split; [reflexivity|]. split; [reflexivity|].
  exact (focus_outside_outer_is_outside_inner treeContains isPrefix
           treeContains_nodes isPrefix_trans blurToLink dialog button
           eq_refl eq_refl).
Defined.

Lemma focus_to_the_container_is_inside_witness :
  (forall a b : Node, treeContains (Some a) (Some b) = Normal (isPrefix a b))
  /\ (forall a : Node, isPrefix a a = true)
  /\ relatedTarget blurToDialog = Some dialog
  /\ (isFocusEventOutside treeContains blurToDialog (Some dialog)
      = Normal false
      /\ (currentTarget blurToDialog = Some dialog ->
          isFocusEventOutside treeContains blurToDialog None = Normal false)
      /\ (forall other : Event,
            relatedTarget other = relatedTarget blurToDialog ->
            forall container : Node,
              isFocusEventOutside treeContains other (Some container)
              = isFocusEventOutside treeContains blurToDialog (Some container))
      /\ isFocusEventOutside treeContains blurToDialog None
         = isFocusEventOutside treeContains blurToDialog
             (currentTarget blurToDialog)).
Proof.
  split; [exact treeContains_nodes|]. split; [exact isPrefix_refl|].
  split; [reflexivity|].
  exact (@focus_to_the_container_is_inside treeContains isPrefix
           treeContains_nodes isPrefix_refl blurToDialog dialog eq_refl).
Defined.

(** With a [contains] that refuses every call, the predicates still answer
    on the events that do not reach it, and throw on the others. *)
Example refusing_contains :
  isPortalEvent containsThrows
    {| target := Some button; currentTarget := None; relatedTarget := None |}
  = Normal false
  /\ isFocusEventOutside containsThrows clickOnButton None = Normal true
  /\ isFocusEventOutside containsThrows blurToLink None = Throw TypeError.
Proof. repeat split; reflexivity. Qed.

End TargetsFacts.

(** ** [fireEvent], [fireKeyboardEvent], [fireClickEvent] *)

Module FireFacts.

Import Fire.
Local Open Scope string_scope.
Local Open Scope list_scope.

Section Host.

Variable H : Type.
Variable hostDispatch : Element -> DomEvent -> H -> bool * H.
Variable preventDefaultCalled : Element -> DomEvent -> H -> bool.

Hypothesis dom : domDispatch hostDispatch preventDefaultCalled.




End Host.


Definition emptyDom : Dom unit := {| dispatched := []; host := tt |}.

Definition cancelableClick : PointerEventInit :=
  {| pointerEventInit := {| bubbles := Some true; cancelable := Some true;
                            composed := None |};
     button := None; pointerShiftKey := None; pointerCtrlKey := None;
     pointerAltKey := None; pointerMetaKey := None; pointerId := Some 1 |}.



(** A click with [cancelable: true] whose listener calls [preventDefault]
    is answered [false]; the same click without an [eventInit] is answered
    [true]. *)
Example click_prevented_only_when_cancelable :
  fst (fireClickEvent preventingDispatch 3 (Some cancelableClick) emptyDom)
  = false
  /\ fst (fireClickEvent preventingDispatch 3 None emptyDom) = true.
Proof. split; reflexivity. Qed.

End FireFacts.

(** ** [addGlobalEventListener]: what the walk and its remover leave
    alone, and how they compose *)

Module FramesMore.

Import Js Frames FramesFacts.
Local Open Scope string_scope.
Local Open Scope list_scope.

(** A registration of the listener [(type, listener, options)] on one of
    the windows the walk from [scope] reaches. *)
Definition ofTheWalk (type : string) (listener : ListenerId)
  (options : option Options) (scope : Window) (r : Registration) : bool :=
  existsb (fun x => sameRegistration (windowId x) type listener
                      (captureOf options) r)
          (reached scope).

Section Listener.

Variable type : string.
Variable listener : ListenerId.
Variable options : option Options.

Definition among (xs : list Window) (r : Registration) : bool :=
  existsb (fun x => sameRegistration (windowId x) type listener
                      (captureOf options) r) xs.

Lemma detachAll_filter (xs : list Window) :
  forall w : World,
    detachAll type listener options xs w
    = filter (fun r => negb (among xs r)) w.
Proof.
  induction xs as [|x xs IH]; intros w.
  - symmetry. apply QueueFacts.filter_all. reflexivity.
  - change (detachAll type listener options (x :: xs) w)
      with (detachAll type listener options xs
              (detach type listener options w x)).
    rewrite IH. unfold detach. rewrite QueueFacts.filter_filter.
    apply filter_ext. intros r. unfold among. cbn [existsb].
    rewrite negb_orb. reflexivity.
Qed.

Lemma attachAll_appends (xs : list Window) :
  forall w : World,
    exists added : list Registration,
      attachAll type listener options xs w = w ++ added
      /\ forall r, In r added -> among xs r = true.
Proof.
  induction xs as [|x xs IH]; intros w.
  - exists []. split; [symmetry; apply app_nil_r | contradiction].
  - change (attachAll type listener options (x :: xs) w)
      with (attachAll type listener options xs
              (attach type listener options w x)).
    unfold attach, among. cbn [existsb].
    destruct (attached x type listener options w).
    + destruct (IH w) as (added & Heq & Hall). exists added.
      split; [exact Heq|]. intros r Hr.
      fold (among xs r). rewrite (Hall r Hr). apply orb_true_r.
    + destruct (IH (w ++ [Build_Registration (windowId x) type listener
                            (captureOf options) (onceOf options)]))
        as (added & Heq & Hall).
      eexists. split; [rewrite Heq, <- app_assoc; reflexivity|].
      intros r [<- | Hr].
      * rewrite sameRegistration_refl. reflexivity.
      * fold (among xs r). rewrite (Hall r Hr). apply orb_true_r.
Qed.


Lemma filter_twice (A : Type) (p : A -> bool) (l : list A) :
  filter p (filter p l) = filter p l.
Proof.
  rewrite QueueFacts.filter_filter. apply filter_ext. intros a.
  apply andb_diag.
Qed.

Lemma not_attached_not_among (xs : list Window) (w : World) :
  forallb (fun x => negb (attached x type listener options w)) xs = true ->
  forall r, In r w -> among xs r = false.
Proof.
  intros Hnone r Hr. unfold among.
  destruct (existsb _ xs) eqn:E; [|reflexivity].
  apply existsb_exists in E as (x & Hx & Hsame).
  rewrite forallb_forall in Hnone. specialize (Hnone x Hx).
  apply negb_true_iff in Hnone. unfold attached in Hnone.
  assert (existsb (sameRegistration (windowId x) type listener
                     (captureOf options)) w = true)
    by (apply existsb_exists; eauto).
  congruence.
Qed.

End Listener.

(** X8.  Attaching and removing is a round trip: when the listener is not
    yet registered on any window the walk reaches, calling
    [addGlobalEventListener] and then the function it returns leaves the
    host's registrations exactly as they were. *)
Theorem add_then_remove_restores_the_host (type : string)
  (listener : ListenerId) (options : option Options) (scope : Window)
  (w : World) :
  forallb (fun x => negb (attached x type listener options w))
          (reached scope) = true ->
  exists (remove : Remover) (w1 : World),
    addGlobalEventListener type listener options scope w = (Normal remove, w1)
    /\ runRemover remove w1 = (Normal tt, w).
Proof.
  intros Hnone.
  exists (removerOf type listener options scope),
         (attachAll type listener options (reached scope) w).
  split; [apply addGlobalEventListener_walks|].
  rewrite runRemover_walks. f_equal.
  destruct (attachAll_appends type listener options (reached scope) w)
    as (added & -> & Hadded).
  rewrite detachAll_filter, filter_app.
  rewrite (QueueFacts.filter_all _ w), (QueueFacts.filter_none _ added).
  - apply app_nil_r.
  - intros r Hr. rewrite (Hadded r Hr). reflexivity.
  - intros r Hr.
    rewrite (@not_attached_not_among type listener options _ w Hnone r Hr).
    reflexivity.
Qed.

Lemma add_then_remove_restores_the_host_witness :
  forallb (fun x => negb (attached x "click" 7 None
                            [Build_Registration 0 "keydown" 7 false false]))
          (reached top) = true
  /\ exists (remove : Remover) (w1 : World),
       addGlobalEventListener "click" 7 None top
         [Build_Registration 0 "keydown" 7 false false]
       = (Normal remove, w1)
       /\ runRemover remove w1
          = (Normal tt, [Build_Registration 0 "keydown" 7 false false]).
Proof.
  split; [reflexivity|].
  exact (add_then_remove_restores_the_host "click" 7 None top
           [Build_Registration 0 "keydown" 7 false false] eq_refl).
Defined.


(** X10.  The returned remover can be invoked again: in whatever state of
    the host it is invoked, a second invocation right after returns
    normally and changes nothing. *)
Theorem removing_again_changes_nothing (type : string)
  (listener : ListenerId) (options : option Options) (scope : Window)
  (w w2 : World) :
  exists (remove : Remover) (w1 w3 : World),
    addGlobalEventListener type listener options scope w = (Normal remove, w1)
    /\ runRemover remove w2 = (Normal tt, w3)
    /\ runRemover remove w3 = (Normal tt, w3).
Proof.
  exists (removerOf type listener options scope),
         (attachAll type listener options (reached scope) w),
         (detachAll type listener options (reached scope) w2).
  split; [apply addGlobalEventListener_walks|].
  split; [apply runRemover_walks|].
  rewrite runRemover_walks. f_equal.
  rewrite !detachAll_filter. apply filter_twice.
Qed.

(** X11.  Neither the walk nor its remover touches another listener.
    [addGlobalEventListener] keeps every registration of the host in
    place and appends registrations of its listener on windows it
    reaches, nothing else.  The remover drops exactly the registrations
    of that listener (same type, listener and capture flag) on those
    windows and keeps every other one, in order. *)
Theorem the_walk_touches_only_its_listener (type : string)
  (listener : ListenerId) (options : option Options) (scope : Window)
  (w : World) :
  exists (remove : Remover) (w1 added : list Registration),
    addGlobalEventListener type listener options scope w = (Normal remove, w1)
    /\ w1 = w ++ added
    /\ (forall r, In r added -> ofTheWalk type listener options scope r = true)
    /\ forall w2 : World,
         runRemover remove w2
         = (Normal tt,
            filter (fun r => negb (ofTheWalk type listener options scope r))
                   w2).
Proof.
  destruct (attachAll_appends type listener options (reached scope) w)
    as (added & Heq & Hadded).
  exists (removerOf type listener options scope),
         (attachAll type listener options (reached scope) w), added.
  split; [apply addGlobalEventListener_walks|].
  split; [exact Heq|]. split; [exact Hadded|].
  intros w2. rewrite runRemover_walks, detachAll_filter. reflexivity.
Qed.

End FramesMore.

(** ** [queueBeforeEvent]: what a resolved race leaves behind *)

Module QueueMore.

Import Js Queue QueueFacts.
Local Open Scope string_scope.
Local Open Scope list_scope.

(** X12.  Once a trigger has fired, the handle has nothing left to cancel:
    invoking it for the first time after the race is resolved changes
    nothing in the host. *)
Theorem cancel_after_the_race_changes_nothing (w0 : World) (e : Element)
  (ty : string) (cb : CallbackId) (tmo : option number) (tr : list Step) :
  let c := fst (queueBeforeEvent e ty cb tmo w0) in
  let w2 := steps tr (snd (queueBeforeEvent e ty cb tmo w0)) in
  wellFormed w0 = true ->
  existsb (isCancel c) tr = false ->
  existsb (isTrigger c e ty) tr = true ->
  runCanceller c w2 = w2.
Proof.
  intros c w2 Hwf Hnc Htrig.
  destruct (@queue_arms w0 e ty cb tmo Hwf) as (tm & Hours & Hh & Ha).
  fold c in Hours, Ha.
  assert (Hsteps : if existsb (isTrigger c e ty) tr
                   then Done (List.length (scopes w0)) e ty cb tmo c w2
                   else Armed (List.length (scopes w0)) e ty cb tmo c tm w2)
    by (eapply steps_armed; eassumption).
  rewrite Htrig in Hsteps.
  apply spent_noop. apply (done_reads Hsteps).
Qed.

Lemma cancel_after_the_race_changes_nothing_witness :
  wellFormed emptyWorld = true
  /\ existsb (isCancel (ClearTimeout 1)) [EventFires 7 "keydown"] = false
  /\ existsb (isTrigger (ClearTimeout 1) 7 "keydown") [EventFires 7 "keydown"]
     = true
  /\ (let w2 :=
        steps [EventFires 7 "keydown"]
          (snd (queueBeforeEvent 7 "keydown" 42 (Some (Finite 100))
                  emptyWorld)) in
      runCanceller (ClearTimeout 1) w2 = w2).
Proof.
  do 3 (split; [reflexivity|]).
  exact (cancel_after_the_race_changes_nothing emptyWorld 7 "keydown" 42
           (Some (Finite 100)) [EventFires 7 "keydown"]
           eq_refl eq_refl eq_refl).
Defined.

(** *** The host before and after a race *)

Lemma find_last (A : Type) (p : A -> bool) (l : list A) (x : A) :
  (forall y, In y l -> p y = false) -> p x = true ->
  find p (l ++ [x]) = Some x.
Proof.
  induction l as [|y l IH]; cbn; intros Hl Hx.
  - rewrite Hx. reflexivity.
  - rewrite (Hl y (or_introl eq_refl)). apply IH; auto.
Qed.

Lemma filter_drops_last (A : Type) (p : A -> bool) (l : list A) (x : A) :
  (forall y, In y l -> p y = true) -> p x = false ->
  filter p (l ++ [x]) = l.
Proof.
  intros Hl Hx. rewrite filter_app, (filter_all _ l Hl). cbn.
  rewrite Hx. apply app_nil_r.
Qed.

(** A call in a well-formed host adds a timer and a listener that nothing
    in the host can be mistaken for. *)
Lemma queue_adds_fresh (w0 : World) (e : Element) (ty : string)
  (cb : CallbackId) (tmo : option number) :
  wellFormed w0 = true ->
  let s := List.length (scopes w0) in
  let c := fst (queueBeforeEvent e ty cb tmo w0) in
  let w1 := snd (queueBeforeEvent e ty cb tmo w0) in
  let l1 := {| target := e; eventType := ty; listener := CallSync s;
               capture := true; once := true |} in
  exists t : Timer,
    timers w1 = timers w0 ++ [t]
    /\ listeners w1 = listeners w0 ++ [l1]
    /\ scopes w1 = scopes w0 ++ [{| element := e; type := ty; callback := cb;
                                    timeout := tmo; cancelTimer := c |}]
    /\ calls w1 = calls w0
    /\ handler t = OnTimer s
    /\ timerOf c = (api t, timerId t)
    /\ (forall t0, In t0 (timers w0) ->
          isTimer (api t) (timerId t) t0 = false)
    /\ (forall l, In l (listeners w0) ->
          closure_eqb (listener l) (CallSync s) = false).
Proof.
  intros Hwf s c w1 l1.
  apply wellFormed_iff in Hwf as (Htimers & Hlisteners & _ & _).
  destruct (queue_effect e ty cb tmo w0)
    as (t & Ht & Hh & Hc & Hfresh & _ & _ & _ & Hs & Hl & Hcalls & _).
  fold w1 in Ht, Hs, Hl, Hcalls. fold c in Hc, Hs. fold s in Hh, Hl.
  assert (Hclosure : forall l, In l (listeners w0) ->
            closure_eqb (listener l) (CallSync s) = false).
  { intros l Hin. specialize (Hlisteners l Hin).
    destruct (closure_eqb (listener l) (CallSync s)) eqn:E; [|reflexivity].
    apply closure_eqb_eq in E. rewrite E in Hlisteners.
    cbn [scopeBelow] in Hlisteners. apply Nat.ltb_lt in Hlisteners.
    unfold s in Hlisteners. lia. }
  assert (Hnone : existsb (sameListener e ty (CallSync s) true) (listeners w0)
                  = false).
  { destruct (existsb _ (listeners w0)) eqn:E; [|reflexivity].
    apply existsb_exists in E as (l & Hin & Hsame).
    unfold sameListener in Hsame.
    apply andb_true_iff in Hsame as [Hsame _].
    apply andb_true_iff in Hsame as [_ Hsame].
    rewrite (Hclosure l Hin) in Hsame. discriminate. }
  rewrite Hnone in Hl.
  exists t. repeat split; try assumption.
  intros t0 Hin. destruct (Htimers t0 Hin) as [Hbelow _].
  destruct (isTimer (api t) (timerId t) t0) eqn:E; [|reflexivity].
  unfold isTimer in E. apply andb_true_iff in E as [Ea Ei].
  apply api_eqb_eq in Ea. apply Nat.eqb_eq in Ei.
  rewrite Ea, Ei in Hbelow. congruence.
Qed.

(** X13.  A race that resolves leaves no trace but the invocation.  When
    the timer of a call fires before anything else happens, the host has
    the timers and the listeners it had before the call, and the callback
    has been called once.  The same holds when an event of the type
    reaches the element first, provided no listener of an earlier call
    waits for that event on that element. *)
Theorem resolved_race_restores_the_host (w0 : World) (e : Element)
  (ty : string) (cb : CallbackId) (tmo : option number) :
  let s := List.length (scopes w0) in
  let c := fst (queueBeforeEvent e ty cb tmo w0) in
  let w1 := snd (queueBeforeEvent e ty cb tmo w0) in
  let byTimer := timerFires (fst (timerOf c)) (snd (timerOf c)) w1 in
  let byEvent := eventFires e ty w1 in
  wellFormed w0 = true ->
  (timers byTimer = timers w0
   /\ listeners byTimer = listeners w0
   /\ calls byTimer = calls w0 ++ [(s, cb)])
  /\ (existsb (hears e ty) (listeners w0) = false ->
      timers byEvent = timers w0
      /\ listeners byEvent = listeners w0
      /\ calls byEvent = calls w0 ++ [(s, cb)]).
Proof.
  intros s c w1 byTimer byEvent Hwf.
  destruct (@queue_adds_fresh w0 e ty cb tmo Hwf)
    as (t & Ht & Hl & Hs & Hcalls & Hh & Hc & Hfresh & Hclosure).
  fold s in Hl, Hs, Hh, Hclosure. fold c in Hs, Hc. fold w1 in Ht, Hl, Hs, Hcalls.
  set (l1 := {| target := e; eventType := ty; listener := CallSync s;
                capture := true; once := true |}) in *.
  assert (Hself : isTimer (api t) (timerId t) t = true).
  { unfold isTimer. rewrite api_eqb_refl, Nat.eqb_refl. reflexivity. }
  assert (Hscope : nth_error (scopes w1) s
                   = Some {| element := e; type := ty; callback := cb;
                             timeout := tmo; cancelTimer := c |}).
  { rewrite Hs, nth_error_app2 by (unfold s; lia).
    unfold s. rewrite Nat.sub_diag. reflexivity. }
  assert (Hcleared : filter (fun t0 => negb (isTimer (api t) (timerId t) t0))
                       (timers w1) = timers w0).
  { rewrite Ht. apply filter_drops_last.
    - intros t0 Hin. rewrite (Hfresh t0 Hin). reflexivity.
    - rewrite Hself. reflexivity. }
  assert (Hsame : sameListener e ty (CallSync s) true l1 = true).
  { unfold sameListener, l1. cbn.
    rewrite !Nat.eqb_refl, String.eqb_refl. reflexivity. }
  split.
  - unfold byTimer, timerFires. rewrite Hc. cbn [fst snd].
    rewrite Ht, (find_last _ _ t Hfresh Hself), Hh. cbn [run].
    change (scopes (clearTimer _ _ w1)) with (scopes w1).
    rewrite Hscope. cbn [element type callback].
    cbn [invoke removeEventListener clearTimer setTimers setListeners
         timers listeners calls].
    rewrite Hcleared, Hcalls. split; [reflexivity|]. split; [|reflexivity].
    rewrite Hl. apply filter_drops_last.
    + intros l Hin. unfold sameListener. rewrite (Hclosure l Hin).
      rewrite andb_false_r. reflexivity.
    + rewrite Hsame. reflexivity.
  - intros Hquiet.
    assert (Hothers : forall l, In l (listeners w0) -> hears e ty l = false).
    { intros l Hin. destruct (hears e ty l) eqn:E; [|reflexivity].
      assert (existsb (hears e ty) (listeners w0) = true)
        by (apply existsb_exists; eauto).
      congruence. }
    assert (Hhears : hears e ty l1 = true).
    { unfold hears, l1. cbn. rewrite Nat.eqb_refl, String.eqb_refl.
      reflexivity. }
    assert (Hfound : filter (hears e ty) (listeners w1) = [l1]).
    { rewrite Hl, filter_app, (filter_none _ _ Hothers). cbn.
      rewrite Hhears. reflexivity. }
    assert (Hdropped : filter (fun m => negb (listener_eqb m l1))
                         (listeners w1) = listeners w0).
    { rewrite Hl. apply filter_drops_last.
      - intros l Hin. destruct (listener_eqb l l1) eqn:E; [|reflexivity].
        apply listener_eqb_eq in E. subst l.
        rewrite (Hothers l1 Hin) in Hhears. discriminate.
      - rewrite listener_eqb_refl. reflexivity. }
    unfold byEvent, eventFires. rewrite Hfound.
    cbn [filter capture l1 negb app invokeListeners].
    fold l1.
    assert (Hreg : registered l1 w1 = true).
    { apply registered_in. rewrite Hl. apply in_or_app. right. left.
      reflexivity. }
    rewrite Hreg. cbn [once l1 listener run].
    change (scopes (dropListener _ w1)) with (scopes w1).
    rewrite Hscope. cbn [cancelTimer callback].
    rewrite runCanceller_clear, Hc. cbn [fst snd].
    cbn [invoke clearTimer dropListener setTimers setListeners
         timers listeners calls].
    fold l1. rewrite Hcleared, Hdropped, Hcalls. auto.
Qed.

Lemma resolved_race_restores_the_host_witness :
  wellFormed
    (snd (queueBeforeEvent 8 "keyup" 41 None emptyWorld)) = true
  /\ (let w0 := snd (queueBeforeEvent 8 "keyup" 41 None emptyWorld) in
      let w1 := snd (queueBeforeEvent 7 "keydown" 42 (Some (Finite 100)) w0) in
      let byTimer := timerFires Timeout 1 w1 in
      let byEvent := eventFires 7 "keydown" w1 in
      (timers byTimer = timers w0
       /\ listeners byTimer = listeners w0
       /\ calls byTimer = calls w0 ++ [(1, 42)])
      /\ (existsb (hears 7 "keydown") (listeners w0) = false ->
          timers byEvent = timers w0
          /\ listeners byEvent = listeners w0
          /\ calls byEvent = calls w0 ++ [(1, 42)])).
Proof.
  split; [reflexivity|].
  exact (resolved_race_restores_the_host
           (snd (queueBeforeEvent 8 "keyup" 41 None emptyWorld))
           7 "keydown" 42 (Some (Finite 100)) eq_refl).
Defined.

End QueueMore.

(** ** [getInputType]: when it throws *)

Module JsMore.

Import Js JsFacts.
Local Open Scope string_scope.

(** A value that is not an object and is truthy: [true], a number other
    than [0] and [NaN], a string other than the empty one. *)
Definition truthyPrimitive (v : Value) : bool :=
  match v with
  | Object _ => false
  | _ => toBoolean v
  end.

(** X2.  [getInputType] throws in two cases only, and then a [TypeError]:
    when its argument is not an object, and when the argument has a
    [nativeEvent] that is a truthy primitive.  On every other argument it
    returns normally. *)
Theorem getInputType_throws_iff (event : Value) (err : Error) :
  getInputType event = Throw err <->
  err = TypeError
  /\ ((forall props : Props, event <> Object props)
      \/ exists (props : Props) (v : Value),
           event = Object props
           /\ lookup "nativeEvent" props = Some v
           /\ truthyPrimitive v = true).
Proof.
  destruct event as [| |b|n|s|props].
  1-5: (split;
        [ intros H; cbn in H; injection H as <-; split; [reflexivity|];
          left; intros props; discriminate
        | intros [-> _]; reflexivity ]).
  destruct (lookup "nativeEvent" props) as [v|] eqn:Hnative.
  - assert (Hcases :
      getInputType (Object props)
      = if truthyPrimitive v then Throw TypeError
        else match v with
             | Object native =>
                 Normal (match lookup "inputType" native with
                         | Some (Str s) => Str s
                         | _ => Undefined
                         end)
             | _ => Normal Undefined
             end).
    { destruct v as [| |b|n|s|native].
      - apply getInputType_absent with (v := Undefined); auto.
      - apply getInputType_absent with (v := Null); auto.
      - unfold getInputType. cbn. rewrite Hnative. destruct b; reflexivity.
      - unfold getInputType. cbn. rewrite Hnative. cbn.
        destruct (numberToBoolean n); reflexivity.
      - unfold getInputType. cbn. rewrite Hnative. cbn.
        destruct (s =? ""); reflexivity.
      - apply getInputType_wrapped. exact Hnative. }
    rewrite Hcases. destruct (truthyPrimitive v) eqn:Htruthy.
    + split.
      * intros H. injection H as <-. split; [reflexivity|].
        right. exists props, v. auto.
      * intros [-> _]. reflexivity.
    + split.
      * intros H. destruct v; discriminate H.
      * intros [_ [Hno | (props' & v' & Heq & Hlk & Htr)]].
        -- exfalso. apply (Hno props). reflexivity.
        -- injection Heq as <-. congruence.
  - rewrite (getInputType_raw _ Hnative). split; [discriminate|].
    intros [_ [Hno | (props' & v' & Heq & Hlk & _)]].
    + exfalso. apply (Hno props). reflexivity.
    + injection Heq as <-. congruence.
Qed.

End JsMore.


(** ** [isOpeningInNewTab] and [isDownloading] side by side *)

Module IntentMore.

Import Js Intent IntentFacts.
Local Open Scope string_scope.



End IntentMore.
